(** * Seastar's low-resolution clocks

    A shallow embedding of the cached low-resolution clocks of Seastar
    ([core/lowres_clock.hh], [core/lowres_clocks.hh],
    [core/lowres_system_clock.hh]) and of the part of [<chrono>] they are
    written against, followed by the properties of the clock cache.

    Layout:
    - [Int64]: the 64-bit signed representation of every tick count;
    - [Chrono]: [std::ratio], [std::chrono::duration], [duration_cast];
    - the world the clocks run in: the static atomic counters, the precise
      clocks, the log of what a piece of code did;
    - one module per revision of the headers;
    - the theorems. *)

From Stdlib Require Import ZArith List Lia Bool Sorted.
Import ListNotations.
Open Scope Z_scope.

(** ** 64-bit signed tick counts

    [std::chrono::system_clock::rep], [std::chrono::steady_clock::rep],
    [std::chrono::seconds::rep], [std::time_t] and the [std::int64_t] of
    [lowres_system_clock.hh] are all the 64-bit signed integer on the
    platforms Seastar is built for.  A count is a [Z]; an arithmetic result
    that leaves the range is reduced to its two's-complement representative by
    [wrap] (what the generated code computes; the language itself leaves signed
    overflow undefined). *)
Module Int64.

Definition modulus : Z := 2 ^ 64.
Definition min_signed : Z := - 2 ^ 63.
Definition max_signed : Z := 2 ^ 63 - 1.

Definition in_range (z : Z) : Prop := min_signed <= z <= max_signed.

Definition wrap (z : Z) : Z := (z - min_signed) mod modulus + min_signed.

End Int64.

(** ** The fragment of [<chrono>] the headers use *)
Module Chrono.

(** [std::ratio<Num, Den>], kept in lowest terms as the standard requires.
    Clock periods are positive, so both members are [positive]. *)
Record ratio : Type := mk_ratio { num : positive; den : positive }.

(** [std::ratio<n, d>]: the members are [n / gcd] and [d / gcd]. *)
Definition std_ratio (n d : positive) : ratio :=
  let '(_, (n', d')) := Pos.ggcd n d in mk_ratio n' d'.

(** [std::ratio_divide<R1, R2>]. *)
Definition ratio_divide (r1 r2 : ratio) : ratio :=
  std_ratio (num r1 * den r2) (den r1 * num r2).

(** [std::ratio<1>], [std::milli], [std::micro], [std::nano]. *)
Definition unit_ratio : ratio := std_ratio 1 1.
Definition milli : ratio := std_ratio 1 1000.
Definition micro : ratio := std_ratio 1 1000000.
Definition nano : ratio := std_ratio 1 1000000000.

(** [std::chrono::duration<int64, P>]: a tick count whose period is part of
    the type. *)
Record duration (P : ratio) : Type := mk_duration { count : Z }.
Arguments mk_duration P count : clear implicits.
Arguments count {P} d.

(** [std::chrono::seconds], [std::chrono::milliseconds]. *)
Definition seconds : Type := duration unit_ratio.
Definition milliseconds : Type := duration milli.

(** [std::chrono::duration_cast<ToDuration>(d)], as [time.duration.cast]
    defines it: with [CF = ratio_divide<Period, ToDuration::period>], the count
    is copied when [CF] is 1/1, multiplied by [CF::num] when only
    [CF::den] is 1, divided by [CF::den] when only [CF::num] is 1, and
    multiplied then divided otherwise.  The division is that of C++ on
    integers: it truncates towards zero ([Z.quot]). *)
Definition duration_cast {From : ratio} (To : ratio) (d : duration From)
  : duration To :=
  let cf := ratio_divide From To in
  let c := count d in
  mk_duration To
    match num cf, den cf with
    | 1%positive, 1%positive => c
    | n, 1%positive => Int64.wrap (c * Z.pos n)
    | 1%positive, m => c ÷ Z.pos m
    | n, m => Int64.wrap (c * Z.pos n) ÷ Z.pos m
    end.

(** [operator+] and [operator-] of two durations of one type. *)
Definition duration_add {P} (a b : duration P) : duration P :=
  mk_duration P (Int64.wrap (count a + count b)).

Definition duration_sub {P} (a b : duration P) : duration P :=
  mk_duration P (Int64.wrap (count a - count b)).

(** [std::chrono::time_point<Clock, duration<int64, P>>].  The clock is a tag
    of the type only. *)
Record time_point {T : Type} (Clock : T) (P : ratio) : Type :=
  mk_time_point { time_since_epoch : duration P }.
Arguments mk_time_point {T} Clock P time_since_epoch.
Arguments time_since_epoch {T Clock P} t.

End Chrono.

Import Chrono.

(** ** The world the clocks run in *)

(** The two precise clocks of [<chrono>] that the headers sample. *)
Inductive base_clock : Type := steady_clock | system_clock.

(** The two cached clocks; used as the clock tag of their time points. *)
Inductive cached_clock : Type := LowresClock | LowresSystemClock.

(** What the standard library fixes and the headers only name:
    [BaseClock::period], the tick length of each precise clock. *)
Class Platform : Type := { base_period : base_clock -> ratio }.

(** libstdc++: both clocks count nanoseconds. *)
Definition libstdcxx : Platform := {| base_period := fun _ => nano |}.

(** libc++: [system_clock] counts microseconds, [steady_clock] nanoseconds. *)
Definition libcxx : Platform :=
  {| base_period := fun c =>
       match c with steady_clock => nano | system_clock => micro end |}.

(** The state shared by every execution context: the two static atomic
    counters, and the precise clocks as the sequence of readings they hand
    out ([precise c k] is the tick count of the [k]-th call of [c::now()],
    [steady_reads] and [system_reads] count the calls made so far). *)
Record world : Type := mk_world {
  _steady_count : Z;
  _system_count : Z;
  steady_reads : nat;
  system_reads : nat;
  precise : base_clock -> nat -> Z
}.

Definition counter (c : base_clock) (w : world) : Z :=
  match c with
  | steady_clock => _steady_count w
  | system_clock => _system_count w
  end.

Definition reads (c : base_clock) (w : world) : nat :=
  match c with
  | steady_clock => steady_reads w
  | system_clock => system_reads w
  end.

Definition set_counter (c : base_clock) (v : Z) (w : world) : world :=
  match c with
  | steady_clock =>
      mk_world v (_system_count w) (steady_reads w) (system_reads w) (precise w)
  | system_clock =>
      mk_world (_steady_count w) v (steady_reads w) (system_reads w) (precise w)
  end.

Definition count_read (c : base_clock) (w : world) : world :=
  match c with
  | steady_clock =>
      mk_world (_steady_count w) (_system_count w)
               (S (steady_reads w)) (system_reads w) (precise w)
  | system_clock =>
      mk_world (_steady_count w) (_system_count w)
               (steady_reads w) (S (system_reads w)) (precise w)
  end.

(** What a piece of code does to the outside, in program order. *)
Inductive event : Type :=
| Now (c : base_clock) (ticks : Z)      (* [c::now()] returned this reading *)
| Load (c : base_clock) (v : Z)         (* relaxed load of a counter *)
| Store (c : base_clock) (v : Z)        (* relaxed store to a counter *)
| SetCallback                           (* [timer::set_callback] *)
| ArmPeriodic (period : milliseconds).  (* [timer::arm_periodic] *)

(** A computation: from a world to a result, the world it leaves, and the
    events it emitted. *)
Record outcome (A : Type) : Type :=
  mk_outcome { value : A; final : world; emitted : list event }.
Arguments mk_outcome {A} value final emitted.
Arguments value {A} o.
Arguments final {A} o.
Arguments emitted {A} o.

Definition M (A : Type) : Type := world -> outcome A.

Definition ret {A} (a : A) : M A := fun w => mk_outcome a w [].

Definition bind {A B} (m : M A) (k : A -> M B) : M B :=
  fun w =>
    let o1 := m w in
    let o2 := k (value o1) (final o1) in
    mk_outcome (value o2) (final o2) (emitted o1 ++ emitted o2).

Declare Scope clock_scope.
Delimit Scope clock_scope with clock.
Notation "x <- m ;; k" := (bind m (fun x => k))
  (at level 100, m at next level, right associativity) : clock_scope.
Notation "m ;; k" := (bind m (fun _ => k))
  (at level 100, right associativity) : clock_scope.
Open Scope clock_scope.

(** [BaseClock::now()]: the next reading of the precise clock. *)
Definition clock_now `{Platform} (c : base_clock)
  : M (time_point c (base_period c)) :=
  fun w =>
    let ticks := precise w c (reads c w) in
    mk_outcome (mk_time_point c (base_period c) (mk_duration _ ticks))
               (count_read c w) [Now c ticks].

(** [counter.load(std::memory_order_relaxed)]. *)
Definition load (c : base_clock) : M Z :=
  fun w => mk_outcome (counter c w) w [Load c (counter c w)].

(** [counter.store(v, std::memory_order_relaxed)]. *)
Definition store (c : base_clock) (v : Z) : M unit :=
  fun w => mk_outcome tt (set_counter c v w) [Store c v].

(** Modelled from the spec: the periodic-timer facility of [timer.hh]
    ([set_callback(fn)], [arm_periodic(period)]; the callback is invoked on
    the designated execution context at about the configured cadence).  A
    timer holds the callback it was given and the period it was armed with;
    when it expires it runs the callback. *)
Record timer : Type :=
  mk_timer { _callback : option (M unit); _period : option milliseconds }.

(** Modelled from the spec: a timer as [timer<> _timer{}] leaves it, with no
    callback and not armed ([timer.hh] is not part of these sources). *)
Definition new_timer : timer := mk_timer None None.

(** Modelled from the spec: [timer::set_callback(fn)] of [timer.hh]. *)
Definition set_callback (f : M unit) (t : timer) : M timer :=
  fun w => mk_outcome (mk_timer (Some f) (_period t)) w [SetCallback].

(** Modelled from the spec: [timer::arm_periodic(period)] of [timer.hh]. *)
Definition arm_periodic (p : milliseconds) (t : timer) : M timer :=
  fun w => mk_outcome (mk_timer (_callback t) (Some p)) w [ArmPeriodic p].

(** Modelled from the spec: what the timer facility of [timer.hh] does when
    an armed timer comes due; it invokes the callback. *)
Definition expire (t : timer) : M unit :=
  match _period t, _callback t with
  | Some _, Some f => f
  | _, _ => ret tt
  end.

(** The public types, the same in every revision:
    [period = std::ratio<1, 1000>], [duration = duration<rep, period>],
    [time_point = time_point<clock, duration>]. *)
Definition lowres_time_point : Type := time_point LowresClock milli.
Definition lowres_system_time_point : Type := time_point LowresSystemClock milli.

(** [lowres_system_clock::to_time_t] and [from_time_t], written the same way
    in [lowres_clock.hh] (both revisions), [lowres_clocks.hh] and
    [lowres_system_clock.hh]. *)
Definition to_time_t (t : lowres_system_time_point) : Z :=
  count (duration_cast unit_ratio (time_since_epoch t)).

Definition from_time_t (t : Z) : lowres_system_time_point :=
  mk_time_point LowresSystemClock milli
    (duration_cast milli (mk_duration unit_ratio t)).

(** ** A running application

    What a program sees of a revision of the clocks: the two [now()]
    accessors and the timers its refresher objects hold.  The calendar
    conversions are the same everywhere. *)
Record clock_system : Type := mk_system {
  lowres_clock_now : M lowres_time_point;
  lowres_system_clock_now : M lowres_system_time_point;
  timers : list timer
}.

(** The calls open to any execution context. *)
Inductive call : Type :=
| call_lowres_clock_now
| call_lowres_system_clock_now
| call_to_time_t (t : lowres_system_time_point)
| call_from_time_t (s : Z).

Inductive answer : Type :=
| steady_point (t : lowres_time_point)
| system_point (t : lowres_system_time_point)
| calendar_seconds (s : Z).

Definition perform (sys : clock_system) (c : call) : M answer :=
  match c with
  | call_lowres_clock_now =>
      t <- lowres_clock_now sys ;; ret (steady_point t)
  | call_lowres_system_clock_now =>
      t <- lowres_system_clock_now sys ;; ret (system_point t)
  | call_to_time_t t => ret (calendar_seconds (to_time_t t))
  | call_from_time_t s => ret (system_point (from_time_t s))
  end.

(** One thing that happens in a running application: the [n]-th timer
    expires and runs its callback, or some context makes a call.  The timer
    callback is the only writer and runs on one context; a call is a single
    relaxed load of one counter.  An expiry is taken as one step: the
    properties below are about one counter at a time, each written by a
    single store per refresh. *)
Inductive action : Type :=
| Expire (n : nat)
| Call (c : call).

Definition step (sys : clock_system) (a : action) : M (list answer) :=
  match a with
  | Expire n =>
      match nth_error (timers sys) n with
      | Some tm => expire tm ;; ret []
      | None => ret []
      end
  | Call c => r <- perform sys c ;; ret [r]
  end.

(** A sequence of actions; the result lists the answers to the calls, in
    order. *)
Fixpoint run (sys : clock_system) (acts : list action) : M (list answer) :=
  match acts with
  | [] => ret []
  | a :: rest =>
      r <- step sys a ;;
      rs <- run sys rest ;;
      ret (r ++ rs)
  end.

(** A sequence of calls with no timer expiry in between. *)
Definition calls (cs : list call) : list action := map Call cs.

(** The answers of [lowres_clock::now()] among a list of answers, as
    millisecond counts. *)
Fixpoint steady_counts (l : list answer) : list Z :=
  match l with
  | [] => []
  | steady_point t :: rest => count (time_since_epoch t) :: steady_counts rest
  | _ :: rest => steady_counts rest
  end.

(** ** [lowres_clock.hh], first revision: the counters hold the precise
    clocks' own tick counts and [now()] converts when it reads *)
Module ReadTimeConversion.

Module lowres_clock_impl.

Record t : Type := mk { _timer : timer }.

Definition convert_count_to_time_point `{Platform} {T : Type}
    (Clock : T) (D : ratio) (BaseClock : base_clock) (n : Z)
  : time_point Clock D :=
  mk_time_point Clock D (duration_cast D (mk_duration (base_period BaseClock) n)).

Definition system_now `{Platform} {T : Type} (Clock : T) (D : ratio)
  : M (time_point Clock D) :=
  n <- load system_clock ;;
  ret (convert_count_to_time_point Clock D system_clock n).

Definition steady_now `{Platform} {T : Type} (Clock : T) (D : ratio)
  : M (time_point Clock D) :=
  n <- load steady_clock ;;
  ret (convert_count_to_time_point Clock D steady_clock n).

(** The timer updates the counters with this period. *)
Definition _granularity : milliseconds := mk_duration milli 10.

Definition update `{Platform} : M unit :=
  system_t <- clock_now system_clock ;;
  let system_count := count (time_since_epoch system_t) in
  steady_t <- clock_now steady_clock ;;
  let steady_count := count (time_since_epoch steady_t) in
  store system_clock system_count ;;
  store steady_clock steady_count.

(** The constructor [lowres_clock_impl(private_token)]. *)
Definition construct `{Platform} : M t :=
  update ;;
  tm <- set_callback update new_timer ;;
  tm <- arm_periodic _granularity tm ;;
  ret (mk tm).

End lowres_clock_impl.

Module lowres_clock.

Definition now `{Platform} : M lowres_time_point :=
  lowres_clock_impl.steady_now LowresClock milli.

End lowres_clock.

Module lowres_system_clock.

Definition now `{Platform} : M lowres_system_time_point :=
  lowres_clock_impl.system_now LowresSystemClock milli.

End lowres_system_clock.

(** Modelled from the spec: the bootstrap routine ([smp], the friend class
    that alone may construct the refresher; it is not part of these sources)
    constructs the one [lowres_clock_impl], once. *)
Definition boot `{Platform} : M clock_system :=
  impl <- lowres_clock_impl.construct ;;
  ret (mk_system lowres_clock.now lowres_system_clock.now
                 [lowres_clock_impl._timer impl]).

End ReadTimeConversion.

(** ** [lowres_clock.hh], second revision: [update()] converts to
    milliseconds before it stores, [now()] wraps the counter as it is *)
Module StoreTimeConversion.

Module lowres_clock_impl.

Record t : Type := mk { _timer : timer }.

Definition period : ratio := milli.

Definition system_now {T : Type} (Clock : T) : M (time_point Clock period) :=
  n <- load system_clock ;;
  ret (mk_time_point Clock period (mk_duration period n)).

Definition steady_now {T : Type} (Clock : T) : M (time_point Clock period) :=
  n <- load steady_clock ;;
  ret (mk_time_point Clock period (mk_duration period n)).

Definition _granularity : milliseconds := mk_duration milli 10.

Definition now_count `{Platform} (D : ratio) (BaseClock : base_clock) : M Z :=
  tp <- clock_now BaseClock ;;
  ret (count (duration_cast D (time_since_epoch tp))).

Definition update `{Platform} : M unit :=
  system_count <- now_count period system_clock ;;
  steady_count <- now_count period steady_clock ;;
  store system_clock system_count ;;
  store steady_clock steady_count.

Definition construct `{Platform} : M t :=
  update ;;
  tm <- set_callback update new_timer ;;
  tm <- arm_periodic _granularity tm ;;
  ret (mk tm).

End lowres_clock_impl.

Module lowres_clock.

Definition now : M lowres_time_point :=
  lowres_clock_impl.steady_now LowresClock.

End lowres_clock.

Module lowres_system_clock.

Definition now : M lowres_system_time_point :=
  lowres_clock_impl.system_now LowresSystemClock.

End lowres_system_clock.

(** Modelled from the spec: the bootstrap routine ([smp], not part of these
    sources) constructs the one [lowres_clock_impl], once. *)
Definition boot `{Platform} : M clock_system :=
  impl <- lowres_clock_impl.construct ;;
  ret (mk_system lowres_clock.now lowres_system_clock.now
                 [lowres_clock_impl._timer impl]).

End StoreTimeConversion.

(** ** [lowres_clocks.hh]: one class template [clock_impl], instantiated once
    per precise clock, each instance with a counter and a timer of its own *)
Module Generic.

Module clock_impl.

Record t : Type := mk { _timer : timer }.

Definition now `{Platform} (BaseClock : base_clock) {T : Type}
    (Clock : T) (D : ratio) : M (time_point Clock D) :=
  n <- load BaseClock ;;
  ret (mk_time_point Clock D
         (duration_cast D (mk_duration (base_period BaseClock) n))).

Definition update `{Platform} (BaseClock : base_clock) : M unit :=
  tp <- clock_now BaseClock ;;
  let count := count (time_since_epoch tp) in
  store BaseClock count.

Definition construct `{Platform} (BaseClock : base_clock)
    (_granularity : milliseconds) : M t :=
  update BaseClock ;;
  tm <- set_callback (update BaseClock) new_timer ;;
  tm <- arm_periodic _granularity tm ;;
  ret (mk tm).

End clock_impl.

(** [using lowres_clock_impl = clock_impl<steady_clock, milliseconds, 10>] and
    [using lowres_system_clock_impl = clock_impl<system_clock, milliseconds, 10>]. *)
Definition granularity : milliseconds := mk_duration milli 10.

Module lowres_clock.

Record t : Type := mk { _impl : clock_impl.t }.

Definition now `{Platform} : M lowres_time_point :=
  clock_impl.now steady_clock LowresClock milli.

(** [lowres_clock(private_token)]: the member [_impl] is default-constructed. *)
Definition construct `{Platform} : M t :=
  impl <- clock_impl.construct steady_clock granularity ;;
  ret (mk impl).

End lowres_clock.

Module lowres_system_clock.

Record t : Type := mk { _impl : clock_impl.t }.

Definition now `{Platform} : M lowres_system_time_point :=
  clock_impl.now system_clock LowresSystemClock milli.

Definition construct `{Platform} : M t :=
  impl <- clock_impl.construct system_clock granularity ;;
  ret (mk impl).

End lowres_system_clock.

(** Modelled from the spec: the bootstrap routine ([smp], not part of these
    sources) constructs one object of each clock class, once; each brings its
    own [clock_impl] and timer. *)
Definition boot `{Platform} : M clock_system :=
  steady <- lowres_clock.construct ;;
  wall <- lowres_system_clock.construct ;;
  ret (mk_system lowres_clock.now lowres_system_clock.now
                 [clock_impl._timer (lowres_clock._impl steady);
                  clock_impl._timer (lowres_system_clock._impl wall)]).

End Generic.

(** ** [lowres_system_clock.hh]: the system clock computed from the steady
    one.  Its [lowres_clock] is the steady-only header of the same age, whose
    [now()] wraps the counter as a millisecond count. *)
Module SteadyDerived.

Module lowres_clock_impl.

Definition now : M lowres_time_point :=
  nr <- load steady_clock ;;
  ret (mk_time_point LowresClock milli (mk_duration milli nr)).

End lowres_clock_impl.

Module lowres_clock.

Definition now : M lowres_time_point := lowres_clock_impl.now.

End lowres_clock.

Module lowres_system_clock.

(** [_base] (the reference time relative to the Unix epoch at program
    initialization) and [_ref] (the first time point captured from
    [lowres_clock]) are static members set outside the header; they are
    arguments here. *)
Definition now `{Platform}
    (_base : duration (base_period system_clock)) (_ref : milliseconds)
  : M lowres_system_time_point :=
  lc <- lowres_clock.now ;;
  let elapsed := duration_sub (time_since_epoch lc) _ref in
  ret (mk_time_point LowresSystemClock milli
         (duration_cast milli
            (duration_add _base
               (duration_cast (base_period system_clock) elapsed)))).

End lowres_system_clock.

End SteadyDerived.

(** ** The unified design of the specification

    Written from the words of the specification, to compare the revisions
    with: one cache per precise clock holding a millisecond count since that
    clock's epoch; [refresh] reads the steady and the wall precise clock once
    each, converts both readings to millisecond counts and stores them;
    [now] loads the cached count and returns it as a time point; construction
    refreshes once, synchronously, and arms the timer with the 10 ms cadence. *)
Module SpecDesign.

Definition refresh_cache `{Platform} (c : base_clock) : M unit :=
  tp <- clock_now c ;;
  store c (count (duration_cast milli (time_since_epoch tp))).

Definition refresh `{Platform} : M unit :=
  refresh_cache steady_clock ;;
  refresh_cache system_clock.

Definition now (c : base_clock) {T : Type} (Clock : T) : M (time_point Clock milli) :=
  n <- load c ;;
  ret (mk_time_point Clock milli (mk_duration milli n)).

Definition cadence : milliseconds := mk_duration milli 10.

Definition construct `{Platform} : M clock_system :=
  refresh ;;
  tm <- set_callback refresh new_timer ;;
  tm <- arm_periodic cadence tm ;;
  ret (mk_system (now steady_clock LowresClock)
                 (now system_clock LowresSystemClock) [tm]).

End SpecDesign.

(** ** Notions the properties are stated with *)

(** The millisecond count of a reading of precise clock [c]:
    [duration_cast<duration<rep, milli>>(BaseClock::duration(ticks)).count()]. *)
Definition in_milliseconds `{Platform} (c : base_clock) (ticks : Z) : Z :=
  count (duration_cast milli (mk_duration (base_period c) ticks)).

(** A counter may hold a reading as the clock gave it, or converted. *)
Definition raw_ticks (c : base_clock) (ticks : Z) : Z := ticks.

(** [ticks] is a reading that precise clock [c] has handed out by now. *)
Definition sampled (c : base_clock) (w : world) (ticks : Z) : Prop :=
  exists k, (k < reads c w)%nat /\ precise w c k = ticks.

(** The counter of [c] holds, encoded by [enc], the latest reading that [c]
    handed out. *)
Definition holds_latest (enc : base_clock -> Z -> Z) (c : base_clock)
    (w : world) : Prop :=
  exists k, reads c w = S k /\ counter c w = enc c (precise w c k).

(** From [w] to [w'], clock [c] was read once and the reading stored. *)
Definition refreshed (enc : base_clock -> Z -> Z) (c : base_clock)
    (w w' : world) : Prop :=
  precise w' = precise w
  /\ reads c w' = S (reads c w)
  /\ counter c w' = enc c (precise w c (reads c w)).

(** From [w] to [w'], clock [c] was not read and its counter not written. *)
Definition untouched (c : base_clock) (w w' : world) : Prop :=
  precise w' = precise w
  /\ reads c w' = reads c w
  /\ counter c w' = counter c w.

Definition refreshes (enc : base_clock -> Z -> Z) (c : base_clock)
    (m : M unit) : Prop :=
  forall w, refreshed enc c w (final (m w)).

Definition leaves (c : base_clock) (m : M unit) : Prop :=
  forall w, untouched c w (final (m w)).

(** A precise clock that never goes back. *)
Definition non_decreasing (readings : nat -> Z) : Prop :=
  forall i j, (i <= j)%nat -> readings i <= readings j.

(** A period that divides the millisecond: the cast to milliseconds is a
    division.  Every [<chrono>] in use has such clocks (nanoseconds,
    microseconds, 100 ns). *)
Definition at_least_millisecond (p : ratio) : Prop :=
  num (ratio_divide p milli) = 1%positive.

(** Booting an application and letting [acts] happen: the system, and the
    answers to the calls among [acts]. *)
Definition booted (boot : M clock_system) (acts : list action)
  : M (clock_system * list answer) :=
  sys <- boot ;;
  rs <- run sys acts ;;
  ret (sys, rs).

(** What an application built on [sys] relies on: the accessors load a counter
    and decode it with [dec], leaving the world as it is; each timer, for each
    clock, either refreshes the counter (encoded with [enc]) or leaves it
    alone; the first timer is one that refreshes the steady counter and no
    later one does. *)
Record implements `{Platform} (enc dec : base_clock -> Z -> Z)
    (sys : clock_system) : Prop := {
  decodes : forall c ticks, dec c (enc c ticks) = in_milliseconds c ticks;
  steady_accessor : forall w,
    lowres_clock_now sys w =
    mk_outcome
      (mk_time_point LowresClock milli
         (mk_duration milli (dec steady_clock (counter steady_clock w))))
      w [Load steady_clock (counter steady_clock w)];
  system_accessor : forall w,
    lowres_system_clock_now sys w =
    mk_outcome
      (mk_time_point LowresSystemClock milli
         (mk_duration milli (dec system_clock (counter system_clock w))))
      w [Load system_clock (counter system_clock w)];
  timers_refresh : forall tm c, In tm (timers sys) ->
    refreshes enc c (expire tm) \/ leaves c (expire tm);
  steady_timer : exists t0 rest,
    timers sys = t0 :: rest
    /\ refreshes enc steady_clock (expire t0)
    /\ forall tm, In tm rest -> leaves steady_clock (expire tm)
}.

(** [boot] leaves, from any world, both counters refreshed and a system that
    keeps to the discipline above. *)
Definition boots `{Platform} (enc dec : base_clock -> Z -> Z)
    (boot : M clock_system) : Prop :=
  forall w0,
    implements enc dec (value (boot w0))
    /\ forall c, refreshed enc c w0 (final (boot w0)).

(** The time point [t], and the counter of [c] it was decoded from, come from
    one reading that precise clock [c] has handed out. *)
Definition from_a_sample `{Platform} (enc : base_clock -> Z -> Z)
    (c : base_clock) (w : world) (t_count : Z) : Prop :=
  exists ticks,
    sampled c w ticks
    /\ counter c w = enc c ticks
    /\ t_count = in_milliseconds c ticks.

(** At any moment of any run, both accessors return the millisecond count of a
    reading their own precise clock handed out earlier. *)
Definition answers_are_samples `{Platform} (enc : base_clock -> Z -> Z)
    (boot : M clock_system) : Prop :=
  forall w0 acts,
    let o := booted boot acts w0 in
    let sys := fst (value o) in
    let w := final o in
    from_a_sample enc steady_clock w
      (count (time_since_epoch (value (lowres_clock_now sys w))))
    /\ from_a_sample enc system_clock w
      (count (time_since_epoch (value (lowres_system_clock_now sys w)))).

(** In any run over a steady clock that never goes back, the answers of
    [lowres_clock::now()] are in non-decreasing order. *)
Definition steady_answers_sorted (boot : M clock_system) : Prop :=
  forall w0 acts,
    non_decreasing (precise w0 steady_clock) ->
    StronglySorted Z.le (steady_counts (snd (value (booted boot acts w0)))).

(** At any moment of any run, calls alone (no timer expiry) change neither
    counter nor what either accessor returns; and what an accessor returns is
    a function of its counter alone. *)
Definition frozen_between_refreshes (boot : M clock_system) : Prop :=
  forall w0 acts,
    let o := booted boot acts w0 in
    let sys := fst (value o) in
    let w := final o in
    (forall cs,
       let w' := final (run sys (calls cs) w) in
       value (lowres_clock_now sys w') = value (lowres_clock_now sys w)
       /\ value (lowres_system_clock_now sys w')
          = value (lowres_system_clock_now sys w))
    /\ (forall w1 w2,
          _steady_count w1 = _steady_count w2 ->
          value (lowres_clock_now sys w1) = value (lowres_clock_now sys w2))
    /\ (forall w1 w2,
          _system_count w1 = _system_count w2 ->
          value (lowres_system_clock_now sys w1)
          = value (lowres_system_clock_now sys w2)).

Definition is_store (e : event) : bool :=
  match e with Store _ _ => true | _ => false end.

(** At any moment of any run, a call leaves both counters as they are and
    stores nothing. *)
Definition calls_do_not_write (boot : M clock_system) : Prop :=
  forall w0 acts c,
    let o := booted boot acts w0 in
    let sys := fst (value o) in
    let w := final o in
    let o' := perform sys c w in
    _steady_count (final o') = _steady_count w
    /\ _system_count (final o') = _system_count w
    /\ existsb is_store (emitted o') = false.

(** Two revisions booted in the same world and put through the same actions
    give the same answers to [lowres_clock::now()]. *)
Definition same_steady_answers (boot1 boot2 : M clock_system) : Prop :=
  forall w0 acts,
    steady_counts (snd (value (booted boot1 acts w0)))
    = steady_counts (snd (value (booted boot2 acts w0))).

(** Two worlds, one per revision, in which the same steady clock has been
    read the same number of times and each counter holds the latest reading
    in its revision's encoding. *)
Definition aligned (enc1 enc2 : base_clock -> Z -> Z) (w1 w2 : world) : Prop :=
  precise w1 = precise w2
  /\ reads steady_clock w1 = reads steady_clock w2
  /\ holds_latest enc1 steady_clock w1
  /\ holds_latest enc2 steady_clock w2.

(** The millisecond count that the accessor for clock [c] returns: the steady
    accessor for [steady_clock], the system accessor for [system_clock]. *)
Definition perform_now (steady : M lowres_time_point)
    (wall : M lowres_system_time_point) (c : base_clock)
  : M milliseconds :=
  match c with
  | steady_clock => t <- steady ;; ret (time_since_epoch t)
  | system_clock => t <- wall ;; ret (time_since_epoch t)
  end.

(** ** Further notions: freshness, cost and equivalence of the revisions *)

(** How many times the [n]-th timer expires among [acts]. *)
Fixpoint expiries (n : nat) (acts : list action) : nat :=
  match acts with
  | [] => O
  | Expire m :: rest =>
      if Nat.eqb m n then S (expiries n rest) else expiries n rest
  | Call _ :: rest => expiries n rest
  end.

(** At any moment of any run, each accessor returns the millisecond count of
    the most recent reading its precise clock handed out. *)
Definition answers_are_latest `{Platform} (boot : M clock_system) : Prop :=
  forall w0 acts c,
    let o := booted boot acts w0 in
    let sys := fst (value o) in
    let w := final o in
    exists k,
      reads c w = S k
      /\ count (value (perform_now (lowres_clock_now sys)
                                   (lowres_system_clock_now sys) c w))
         = in_milliseconds c (precise w0 c k).

(** In a run booted by [boot], precise clock [c] is read once at boot and
    once per expiry of timer [timer_of c], and at no other time. *)
Definition reads_once_per_expiry (boot : M clock_system)
    (timer_of : base_clock -> nat) : Prop :=
  forall w0 acts c,
    reads c (final (booted boot acts w0))
    = (S (reads c w0) + expiries (timer_of c) acts)%nat.

(** Two revisions booted in the same world and put through the same actions
    give the same answers to every call. *)
Definition same_answers (boot1 boot2 : M clock_system) : Prop :=
  forall w0 acts,
    snd (value (booted boot1 acts w0)) = snd (value (booted boot2 acts w0)).

(** A world of the first revision of [lowres_clock.hh] and one of the second
    that went through the same refreshes: same clocks, read as often, the
    second's counters holding the millisecond counts of the first's. *)
Definition converted `{Platform} (w1 w2 : world) : Prop :=
  precise w1 = precise w2
  /\ (forall c, reads c w1 = reads c w2)
  /\ (forall c, counter c w2 = in_milliseconds c (counter c w1)).

(** Nothing leaves the 64-bit range when [lowres_system_clock::now()] of
    [lowres_system_clock.hh] is computed in [w], with [k] ticks of the wall
    clock to the millisecond: neither the elapsed milliseconds, nor their
    count in ticks, nor the sum with [_base]. *)
Definition steady_derived_fits `{Platform} (k : positive)
    (_base : duration (base_period system_clock)) (_ref : milliseconds)
    (w : world) : Prop :=
  Int64.in_range (_steady_count w - count _ref)
  /\ Int64.in_range ((_steady_count w - count _ref) * Z.pos k)
  /\ Int64.in_range (count _base + (_steady_count w - count _ref) * Z.pos k).

(** ** Worlds to try the definitions on *)

(** A machine 3 ms after the steady epoch, on 14 November 2023 by its wall
    clock; each reading of either clock comes 10 ms after the one before, in
    nanoseconds.  The static counters are still zero. *)
Definition example_world : world :=
  mk_world 0 0 0 0
    (fun c k =>
       match c with
       | steady_clock => 3000000 + Z.of_nat k * 10000000
       | system_clock => 1700000000000000000 + Z.of_nat k * 10000000
       end).

(** A machine whose steady clock counts from its start and which constructs
    the clocks 999999 ns after it, less than a millisecond; each further
    reading comes 10 ms after the one before.  The static counters are still
    zero. *)
Definition just_started_world : world :=
  mk_world 0 0 0 0
    (fun c k =>
       match c with
       | steady_clock => 999999 + Z.of_nat k * 10000000
       | system_clock => 1700000000000000000 + Z.of_nat k * 10000000
       end).

(** A machine whose wall clock is held at 1000 s after the Unix epoch (by an
    operator, or by a clock correction that undoes its progress) while its
    steady clock moves 50 ms per reading.  Two readings of each have been
    taken; the steady counter holds the second as a millisecond count. *)
Definition held_wall_clock_world : world :=
  mk_world 50 1000000 2 2
    (fun c k =>
       match c with
       | steady_clock => Z.of_nat k * 50000000
       | system_clock => 1000000000000
       end).

(** * Logging options on the command line ([util/log-cli.hh] and its
    implementation) *)

From Stdlib Require Ascii String.

(** 32-bit signed [int], for the entry counter of [operator<<]. *)
Module Int32.

Definition min_signed : Z := - 2 ^ 31.
Definition max_signed : Z := 2 ^ 31 - 1.
Definition wrap (z : Z) : Z := (z - min_signed) mod 2 ^ 32 + min_signed.

End Int32.

Module log_cli.
Import Ascii String.

(** Modelled from the spec: [seastar::sstring] ([core/sstring.hh]) is not
    among these sources and the specification names no string type of its own;
    it is taken to be what the code converts it to and from, [std::string]: a
    sequence of [char], with [find] returning the position of the first
    occurrence ([npos], here [None], when there is none) and [substr(pos, n)]
    the [n] characters from [pos], or as many as there are. *)
Definition sstring : Type := list ascii.

Definition sstring_eq_dec : forall a b : sstring, {a = b} + {a <> b} :=
  list_eq_dec ascii_dec.

Fixpoint find (c : ascii) (s : sstring) : option nat :=
  match s with
  | [] => None
  | x :: rest =>
      if Ascii.eqb x c then Some O
      else match find c rest with
           | Some i => Some (S i)
           | None => None
           end
  end.

Definition substr (pos n : nat) (s : sstring) : sstring :=
  firstn n (skipn pos s).

(** What the functions of this file throw. *)
Inductive exception : Type :=
| invalid_option_value (token : sstring)
| runtime_error (what : sstring).

(** [logger_levels], a [std::unordered_map<sstring, sstring>]: the entries in
    iteration order, one per key.  [lv[k] = v] replaces the value of an entry
    that is there and adds one that is not (where a new entry comes in the
    iteration order is left open by the container; here it comes last). *)
Definition logger_levels : Type := list (sstring * sstring).

Fixpoint lookup (k : sstring) (lv : logger_levels) : option sstring :=
  match lv with
  | [] => None
  | (k', v) :: rest => if sstring_eq_dec k k' then Some v else lookup k rest
  end.

Fixpoint assign (k v : sstring) (lv : logger_levels) : logger_levels :=
  match lv with
  | [] => [(k, v)]
  | (k', v') :: rest =>
      if sstring_eq_dec k k' then (k, v) :: rest
      else (k', v') :: assign k v rest
  end.

(** The pieces of [s] between its colons: one more than there are colons. *)
Fixpoint fields (s : sstring) : list sstring :=
  match s with
  | [] => [[]]
  | c :: rest =>
      if Ascii.eqb c ":"%char then [] :: fields rest
      else match fields rest with
           | f :: fs => (c :: f) :: fs
           | [] => [[c]]
           end
  end.

(** The sequence that
    [std::sregex_token_iterator(v.begin(), v.end(), colon, -1)] runs through:
    what lies before each match of the colon and, if it is not empty, what
    lies after the last; when there is no colon at all, the whole of [v], empty
    or not. *)
Definition sregex_token_iterator (v : sstring) : list sstring :=
  match fields v with
  | [whole] => [whole]
  | fs => match last fs [] with
          | [] => removelast fs
          | _ => fs
          end
  end.

(** The loop of [parse_level_assignments] over the tokens.  [lv] is a
    reference: what has been assigned when the exception is thrown stays
    assigned. *)
Fixpoint parse_level_assignments_loop (tokens : list sstring)
    (lv : logger_levels) : logger_levels * option exception :=
  match tokens with
  | [] => (lv, None)
  | p :: rest =>
      match find "="%char p with
      | None => (lv, Some (invalid_option_value p))
      | Some i =>
          let k := substr 0 i p in
          let v := substr (i + 1) (List.length p) p in
          parse_level_assignments_loop rest (assign k v lv)
      end
  end.

Definition parse_level_assignments (v : sstring) (lv : logger_levels)
  : logger_levels * option exception :=
  parse_level_assignments_loop (sregex_token_iterator v) lv.

(** The loop of [validate] over the occurrences of the option. *)
Fixpoint validate_loop (input : list sstring) (lv : logger_levels)
  : logger_levels * option exception :=
  match input with
  | [] => (lv, None)
  | s :: rest =>
      match parse_level_assignments s lv with
      | (lv', None) => validate_loop rest lv'
      | (lv', Some e) => (lv', Some e)
      end
  end.

(** [validate(out, in, (logger_levels* )0, 0)]: [out] is a [boost::any], empty
    ([None]) or holding the levels read so far. *)
Definition validate (out : option logger_levels) (input : list sstring)
  : option logger_levels * option exception :=
  let lv := match out with
            | None => []
            | Some lv => lv
            end in
  let r := validate_loop input lv in
  (Some (fst r), snd r).

(** The loop of [operator<<]; [n] is its [int] counter. *)
Fixpoint output_loop (n : Z) (lv : logger_levels) : sstring :=
  match lv with
  | [] => []
  | (k, v) :: rest =>
      (if 0 <? n then [":"%char] else [])
      ++ k ++ ["="%char] ++ v
      ++ output_loop (Int32.wrap (n + 1)) rest
  end.

(** [os << lv], for an output stream that holds [os] so far. *)
Definition output (os : sstring) (lv : logger_levels) : sstring :=
  os ++ output_loop 0 lv.

(** An input stream: what is left to read, and two of its state bits. *)
Record istream : Type :=
  mk_istream { unread : sstring; eofbit : bool; failbit : bool }.

(** [std::isspace] in the classic locale. *)
Definition isspace (c : ascii) : bool :=
  let n := nat_of_ascii c in
  (Nat.eqb n 32 || (Nat.leb 9 n && Nat.leb n 13))%bool.

Fixpoint skip_whitespace (s : sstring) : sstring :=
  match s with
  | c :: rest => if isspace c then skip_whitespace rest else s
  | [] => []
  end.

Fixpoint word (s : sstring) : sstring * sstring :=
  match s with
  | c :: rest =>
      if isspace c then ([], s)
      else let '(w, r) := word rest in (c :: w, r)
  | [] => ([], [])
  end.

(** [std::string str; is >> str]: nothing is read from a stream that is not
    good, or that holds only white space; otherwise white space is skipped
    and the characters up to the next white space are taken.  Running into
    the end sets [eofbit]; reading nothing sets [failbit]. *)
Definition extract_string (ins : istream) : sstring * istream :=
  if (eofbit ins || failbit ins)%bool then
    ([], mk_istream (unread ins) (eofbit ins) true)
  else
    match skip_whitespace (unread ins) with
    | [] => ([], mk_istream [] true true)
    | s => let '(w, r) := word s in
           (w, mk_istream r (match r with [] => true | _ => false end) false)
    end.

(** [is >> lv]. *)
Definition input (ins : istream) (lv : logger_levels)
  : istream * logger_levels * option exception :=
  let '(str, ins') := extract_string ins in
  let '(lv', e) := parse_level_assignments str lv in
  (ins', lv', e).

(** ** [configure]

    The logging system itself ([log.hh]: the levels, the registry of loggers,
    the switches of [logger]) is not among these sources, and the
    specification says of it only that it is a registry from names to levels.
    What [configure] calls of it is taken as a parameter. *)
Section Configure.

(** [seastar::log_level]. *)
Variable log_level : Type.

(** [boost::lexical_cast<seastar::log_level>]: [None] is [bad_lexical_cast]. *)
Variable lexical_cast : sstring -> option log_level.

(** The state behind [global_log_registry()]. *)
Variable logger_registry : Type.

(** [set_all_loggers_level(level)]. *)
Variable set_all_loggers_level : log_level -> logger_registry -> logger_registry.

(** [set_logger_level(name, level)]: [None] is [std::out_of_range], thrown for
    a name that is not registered, with the registry as it was. *)
Variable set_logger_level :
  sstring -> log_level -> logger_registry -> option logger_registry.

(** The logging system: the registry and the two switches that
    [logger::set_stdout_enabled] and [logger::set_syslog_enabled] set. *)
Record logging : Type := mk_logging {
  registry : logger_registry;
  stdout_enabled : bool;
  syslog_enabled : bool
}.

(** What [configure] reads of a [boost::program_options::variables_map]:
    [vars["default-log-level"].as<sstring>()] and so on. *)
Record variables_map : Type := mk_variables_map {
  default_log_level : sstring;
  logger_log_level : logger_levels;
  log_to_stdout : bool;
  log_to_syslog : bool
}.

Definition unknown_log_level (s : sstring) : exception :=
  runtime_error
    (list_ascii_of_string "Unknown log level '" ++ s
     ++ list_ascii_of_string "'").

Definition unknown_logger (name : sstring) : exception :=
  runtime_error
    (list_ascii_of_string "Unknown logger '" ++ name
     ++ list_ascii_of_string "'. Use --help-loggers to list available loggers.").

Definition log_level_from_string (s : sstring) : log_level + exception :=
  match lexical_cast s with
  | Some level => inl level
  | None => inr (unknown_log_level s)
  end.

(** The loop of [configure] over the entries of [logger-log-level], in the
    order the map iterates in. *)
Fixpoint configure_loop (pairs : logger_levels) (r : logger_registry)
  : logger_registry * option exception :=
  match pairs with
  | [] => (r, None)
  | (name, level) :: rest =>
      match log_level_from_string level with
      | inr e => (r, Some e)
      | inl l =>
          match set_logger_level name l r with
          | None => (r, Some (unknown_logger name))
          | Some r' => configure_loop rest r'
          end
      end
  end.

Definition configure (vars : variables_map) (st : logging)
  : logging * option exception :=
  match log_level_from_string (default_log_level vars) with
  | inr e => (st, Some e)
  | inl l =>
      let r1 := set_all_loggers_level l (registry st) in
      match configure_loop (logger_log_level vars) r1 with
      | (r2, Some e) =>
          (mk_logging r2 (stdout_enabled st) (syslog_enabled st), Some e)
      | (r2, None) =>
          (mk_logging r2 (log_to_stdout vars) (log_to_syslog vars), None)
      end
  end.

End Configure.

End log_cli.

(** Notions the properties of [log_cli] are stated with. *)
Module LogCliNotions.
Import Ascii String log_cli.

(** A string literal as an [sstring]. *)
Definition text (s : string) : sstring := list_ascii_of_string s.

Definition has_equals (p : sstring) : Prop := In "="%char p.

(** What a token assigns: the part before its first ['='] is the logger's
    name, the part after it the level. *)
Definition token_key (p : sstring) : option sstring :=
  match find "="%char p with
  | Some i => Some (substr 0 i p)
  | None => None
  end.

Definition token_value (p : sstring) : option sstring :=
  match find "="%char p with
  | Some i => Some (substr (i + 1) (List.length p) p)
  | None => None
  end.

Definition assign_token (lv : logger_levels) (p : sstring) : logger_levels :=
  match token_key p, token_value p with
  | Some k, Some v => assign k v lv
  | _, _ => lv
  end.

(** All the tokens of all the occurrences of the option, in order. *)
Definition all_tokens (input : list sstring) : list sstring :=
  flat_map sregex_token_iterator input.

(** The text of one entry, ["name=level"]. *)
Definition entry_text (e : sstring * sstring) : sstring :=
  fst e ++ "="%char :: snd e.

(** An entry that can be told apart again once written: no ['='] or [':'] in
    the name, no [':'] in the level. *)
Definition separable (e : sstring * sstring) : Prop :=
  ~ In "="%char (fst e) /\ ~ In ":"%char (fst e) /\ ~ In ":"%char (snd e).

(** Levels that can be written and read back: at least one entry, one entry
    per name, every entry separable, and no more entries than an [int]
    counts. *)
Definition printable (lv : logger_levels) : Prop :=
  lv <> []
  /\ NoDup (map fst lv)
  /\ Forall separable lv
  /\ Z.of_nat (List.length lv) <= Int32.max_signed.

Definition no_whitespace (s : sstring) : Prop :=
  Forall (fun c => isspace c = false) s.

End LogCliNotions.

(** * Tuple utilities ([util/tuple_utils.hh])

    The functions are templates over the element types of a [std::tuple].
    Here the C++ types in play are the members of [type], the values of a
    type [T] are those of [object T], and a tuple is the list of its elements,
    each a value together with its static type.  What does not compile
    ([std::get] with an index past the end, a [tuple_filter] with no matching
    specialisation) is [None]. *)
Module tuple_utils.

Section Tuples.
Variable type : Type.
Variable object : type -> Type.

Definition element : Type := {T : type & object T}.
Definition tuple : Type := list element.

Definition type_of (e : element) : type := projT1 e.

(** [std::tuple<Elements...>], the type of a tuple. *)
Definition tuple_type (t : tuple) : list type := map type_of t.

(** [std::index_sequence<I...>] and [std::index_sequence_for<Elements...>]. *)
Definition index_sequence : Type := list nat.

Definition index_sequence_for (Elements : list type) : index_sequence :=
  seq 0 (length Elements).

(** [std::get<I>(t)]. *)
Definition get (i : nat) (t : tuple) : option element := nth_error t i.

(** A pack expansion [g(I)...]: every member has to be well-formed.  (The
    index is written [i]: [I] is taken.) *)
Fixpoint expansion {A B : Type} (g : A -> option B) (pack : list A)
  : option (list B) :=
  match pack with
  | [] => Some []
  | i :: rest =>
      match g i, expansion g rest with
      | Some x, Some xs => Some (x :: xs)
      | _, _ => None
      end
  end.

(** [internal::tuple_for_each_helper]:
    [auto ignore_me = { (f(std::get<I>(t)), 1)... };].  The calls are the
    members of a braced list, so they are made from left to right.  The type
    of [ignore_me] is deduced from the members of the list: with an empty
    pack there is nothing to deduce it from, and the function is ill-formed.
    [f] may have effects: it is a function on a state. *)
Definition tuple_for_each_helper {S : Type} (t : tuple)
    (f : element -> S -> S) (Is : index_sequence) : option (S -> S) :=
  match Is with
  | [] => None
  | _ :: _ =>
      match expansion (fun i => get i t) Is with
      | Some elements => Some (fun s => fold_left (fun s e => f e s) elements s)
      | None => None
      end
  end.

(** [internal::tuple_map_helper]: [std::make_tuple(f(std::get<I>(t))...)].
    The order of the calls is unspecified; [f] is taken to have no effects. *)
Definition tuple_map_helper (t : tuple) (f : element -> element)
    (Is : index_sequence) : option tuple :=
  expansion (fun i => option_map f (get i t)) Is.

(** [internal::prepend<I, std::index_sequence<Is...>>::type]. *)
Definition prepend (i : nat) (Is : index_sequence) : index_sequence := i :: Is.

(** [internal::tuple_filter<Filter, Tuple, IndexSequence>::type]: defined for
    a tuple type and an index sequence that are both empty or both not. *)
Fixpoint tuple_filter (Filter : type -> bool) (Tuple : list type)
    (IndexSequence : index_sequence) : option index_sequence :=
  match Tuple, IndexSequence with
  | T :: Ts, i :: Is =>
      match tuple_filter Filter Ts Is with
      | Some tail => Some (if Filter T then prepend i tail else tail)
      | None => None
      end
  | [], [] => Some []
  | _, _ => None
  end.

(** [internal::tuple_filter_helper]: [std::make_tuple(std::get<I>(t)...)]. *)
Definition tuple_filter_helper (t : tuple) (Is : index_sequence)
  : option tuple :=
  expansion (fun i => get i t) Is.


Definition tuple_filter_by_type (FilterClass : type -> bool) (t : tuple)
  : option tuple :=
  match tuple_filter FilterClass (tuple_type t)
          (index_sequence_for (tuple_type t)) with
  | Some sequence => tuple_filter_helper t sequence
  | None => None
  end.

Definition tuple_map (t : tuple) (f : element -> element) : option tuple :=
  tuple_map_helper t f (index_sequence_for (tuple_type t)).

Definition tuple_for_each {S : Type} (t : tuple) (f : element -> S -> S)
  : option (S -> S) :=
  tuple_for_each_helper t f (index_sequence_for (tuple_type t)).

(** [tuple_generate_from_integers]: [result_type{f(Is)...}], a braced list, so
    [f] is called on the integers from left to right (the [decltype] that works
    out [result_type] calls nothing).  [f] may have effects. *)
Fixpoint tuple_generate_from_integers {N S : Type} (Is : list N)
    (f : N -> S -> element * S) (s : S) : tuple * S :=
  match Is with
  | [] => ([], s)
  | i :: rest =>
      let '(x, s1) := f i s in
      let '(xs, s2) := tuple_generate_from_integers rest f s1 in
      (x :: xs, s2)
  end.

Definition tuple_generate_from_indices {S : Type} (Is : index_sequence)
    (f : nat -> S -> element * S) (s : S) : tuple * S :=
  tuple_generate_from_integers Is f s.

End Tuples.

End tuple_utils.

(** A logging system to try [configure] on: the levels are the five names,
    the registry lists the registered loggers with their levels. *)
Module SampleLogging.
Import Ascii String log_cli LogCliNotions.

Definition lexical_cast (s : sstring) : option sstring :=
  if in_dec sstring_eq_dec s
       [text "trace"; text "debug"; text "info"; text "warn"; text "error"]
  then Some s else None.

Definition set_all_loggers_level (level : sstring) (r : logger_levels)
  : logger_levels :=
  map (fun e => (fst e, level)) r.

Definition set_logger_level (name level : sstring) (r : logger_levels)
  : option logger_levels :=
  match lookup name r with
  | Some _ => Some (assign name level r)
  | None => None
  end.

Definition get_logger_level (name : sstring) (r : logger_levels)
  : option sstring :=
  lookup name r.

Definition three_loggers : logging logger_levels :=
  mk_logging logger_levels
    [(text "log1", text "info"); (text "log2", text "info");
     (text "log3", text "info")]
    true false.

Definition configure :=
  log_cli.configure sstring lexical_cast logger_levels
    set_all_loggers_level set_logger_level.

End SampleLogging.

(** * Properties *)

(** ** Arithmetic of the representation *)
Module Int64Facts.
Import Int64.

Lemma wrap_in_range z : in_range (wrap z).
Proof.
  unfold in_range, wrap, min_signed, max_signed, modulus.
  assert (0 <= (z - - 2 ^ 63) mod 2 ^ 64 < 2 ^ 64) by (apply Z.mod_pos_bound; lia).
  lia.
Qed.

Lemma wrap_small z : in_range z -> wrap z = z.
Proof.
  unfold in_range, wrap, min_signed, max_signed, modulus. intros H.
  rewrite Z.mod_small; lia.
Qed.

(** The remainder of a truncating division lies between zero and the
    dividend. *)
Lemma rem_between z m :
  0 < m ->
  (0 <= z -> 0 <= Z.rem z m <= z /\ Z.rem z m < m)
  /\ (z <= 0 -> z <= Z.rem z m <= 0 /\ - m < Z.rem z m).
Proof.
  intros Hm. split; intros Hz.
  - pose proof (Z.rem_bound_pos z m Hz Hm).
    pose proof (Z.rem_le z m Hz Hm). lia.
  - pose proof (Z.rem_bound_pos (- z) m ltac:(lia) Hm).
    pose proof (Z.rem_le (- z) m ltac:(lia) Hm).
    rewrite Z.rem_opp_l' in *. lia.
Qed.

(** Truncating a count to a multiple of [m] keeps it in range. *)
Lemma truncation_in_range z m :
  0 < m -> in_range z -> in_range (z ÷ m * m).
Proof.
  unfold in_range, min_signed, max_signed. intros Hm Hz.
  pose proof (Z.quot_rem' z m) as E.
  destruct (rem_between z m Hm) as [Hpos Hneg].
  destruct (Z_le_gt_dec 0 z); [specialize (Hpos ltac:(lia)) | specialize (Hneg ltac:(lia))]; lia.
Qed.

Lemma truncation_close z m :
  0 < m -> Z.abs (z - z ÷ m * m) < m.
Proof.
  intros Hm. pose proof (Z.quot_rem' z m) as E.
  destruct (rem_between z m Hm) as [Hpos Hneg].
  destruct (Z_le_gt_dec 0 z); [specialize (Hpos ltac:(lia)) | specialize (Hneg ltac:(lia))]; lia.
Qed.

End Int64Facts.

Module ChronoFacts.

Lemma duration_eq {P} (a b : duration P) : count a = count b -> a = b.
Proof. destruct a, b; simpl; congruence. Qed.

Lemma time_point_eq {T} {C : T} {P} (a b : time_point C P) :
  count (time_since_epoch a) = count (time_since_epoch b) -> a = b.
Proof.
  destruct a as [a], b as [b]; simpl; intros H.
  f_equal; now apply duration_eq.
Qed.

(** The conversion factor between seconds and milliseconds is 1000, so the
    two casts of the calendar conversions are a multiplication and a
    truncating division. *)
Lemma cast_seconds_to_milli (s : seconds) :
  count (duration_cast milli s) = Int64.wrap (count s * 1000).
Proof. reflexivity. Qed.

Lemma cast_milli_to_seconds (d : milliseconds) :
  count (duration_cast unit_ratio d) = count d ÷ 1000.
Proof. reflexivity. Qed.

Lemma to_time_t_count t :
  to_time_t t = count (time_since_epoch t) ÷ 1000.
Proof. reflexivity. Qed.

Lemma from_time_t_count s :
  count (time_since_epoch (from_time_t s)) = Int64.wrap (s * 1000).
Proof. reflexivity. Qed.

End ChronoFacts.

(** ** Calendar conversions *)

(** Nanoseconds to milliseconds is a division by a million; the casts
    truncate towards zero, also before the epoch. *)
Example cast_nanoseconds_to_milliseconds :
  count (duration_cast milli (mk_duration nano 2999999)) = 2
  /\ count (duration_cast milli (mk_duration nano (-2999999))) = -2.
Proof. split; reflexivity. Qed.

Example to_time_t_before_the_epoch :
  to_time_t (mk_time_point LowresSystemClock milli (mk_duration milli (-1500)))
  = -1.
Proof. reflexivity. Qed.

Example from_time_t_sample :
  from_time_t 1700000000
  = mk_time_point LowresSystemClock milli (mk_duration milli 1700000000000).
Proof. reflexivity. Qed.

(** C6.  For every time point [t] of [lowres_system_clock],
    [from_time_t (to_time_t t)] is [t] with its sub-second part truncated
    away (towards the epoch): it lies less than one second (1000 ticks of the
    millisecond period) from [t]. *)
Theorem from_time_t_to_time_t_within_one_second (t : lowres_system_time_point) :
  Int64.in_range (count (time_since_epoch t)) ->
  count (time_since_epoch (from_time_t (to_time_t t)))
    = count (time_since_epoch t) - Z.rem (count (time_since_epoch t)) 1000
  /\ Z.abs (count (time_since_epoch t)
            - count (time_since_epoch (from_time_t (to_time_t t)))) < 1000.
Proof.
  intros Hr.
  rewrite ChronoFacts.from_time_t_count, ChronoFacts.to_time_t_count.
  set (c := count (time_since_epoch t)) in *.
  rewrite Int64Facts.wrap_small
    by (apply Int64Facts.truncation_in_range; [lia | exact Hr]).
  split.
  - pose proof (Z.quot_rem' c 1000). lia.
  - apply Int64Facts.truncation_close. lia.
Qed.

Lemma from_time_t_to_time_t_within_one_second_witness :
  let t := mk_time_point LowresSystemClock milli (mk_duration milli 1500) in
  count (time_since_epoch (from_time_t (to_time_t t))) = 1500 - Z.rem 1500 1000
  /\ Z.abs (1500 - count (time_since_epoch (from_time_t (to_time_t t)))) < 1000.
Proof.
  apply (from_time_t_to_time_t_within_one_second
           (mk_time_point LowresSystemClock milli (mk_duration milli 1500))).
  unfold Int64.in_range, Int64.min_signed, Int64.max_signed. simpl. lia.
Defined.

(** The composition is not the identity: half a second is lost here. *)
Example from_time_t_to_time_t_truncates :
  from_time_t (to_time_t (mk_time_point LowresSystemClock milli (mk_duration milli 1500)))
  = mk_time_point LowresSystemClock milli (mk_duration milli 1000).
Proof. reflexivity. Qed.

(** C10, as stated, fails at the largest [time_t]: the multiplication by 1000
    in [from_time_t] leaves the 64-bit range, and the seconds read back are
    not the seconds put in. *)
Lemma to_time_t_from_time_t_overflow :
  Int64.in_range 9223372036854775807
  /\ count (time_since_epoch (from_time_t 9223372036854775807)) = -1000
  /\ to_time_t (from_time_t 9223372036854775807) = -1
  /\ to_time_t (from_time_t 9223372036854775807) <> 9223372036854775807.
Proof.
  split; [| split; [| split]].
  - unfold Int64.in_range, Int64.min_signed, Int64.max_signed. simpl. lia.
  - reflexivity.
  - reflexivity.
  - vm_compute. discriminate.
Qed.

(** C10, amended.  For every [s] whose millisecond count [1000 * s] is
    representable in the 64-bit [rep], [to_time_t (from_time_t s) = s]. *)
Theorem to_time_t_from_time_t (s : Z) :
  Int64.in_range (s * 1000) -> to_time_t (from_time_t s) = s.
Proof.
  intros Hr.
  rewrite ChronoFacts.to_time_t_count, ChronoFacts.from_time_t_count.
  rewrite Int64Facts.wrap_small by exact Hr.
  apply Z.quot_mul. lia.
Qed.

Lemma to_time_t_from_time_t_witness :
  to_time_t (from_time_t 1700000000) = 1700000000.
Proof.
  apply (to_time_t_from_time_t 1700000000).
  unfold Int64.in_range, Int64.min_signed, Int64.max_signed. simpl. lia.
Defined.

(** ** The refresh discipline, once for all revisions *)

Arguments duration_cast : simpl never.

Section Discipline.
Context `{Platform}.
Variables enc dec : base_clock -> Z -> Z.

Lemma untouched_refl c w : untouched c w w.
Proof. repeat split. Qed.

Lemma refreshed_holds_latest c w w' :
  refreshed enc c w w' -> holds_latest enc c w'.
Proof.
  intros (Hp & Hr & Hc). exists (reads c w). split; [exact Hr |].
  rewrite Hc, Hp. reflexivity.
Qed.

Lemma untouched_holds_latest c w w' :
  untouched c w w' -> holds_latest enc c w -> holds_latest enc c w'.
Proof.
  intros (Hp & Hr & Hc) (k & Hk & Hv). exists k.
  rewrite Hr, Hc, Hp. auto.
Qed.

Lemma holds_latest_sampled c w :
  holds_latest enc c w ->
  exists ticks, sampled c w ticks /\ counter c w = enc c ticks.
Proof.
  intros (k & Hk & Hv). exists (precise w c k). split; [| exact Hv].
  exists k. split; [lia | reflexivity].
Qed.

Variable sys : clock_system.
Hypothesis HS : implements enc dec sys.

Lemma perform_read_only c w : final (perform sys c w) = w.
Proof.
  destruct c; unfold perform, bind; simpl;
    rewrite ?(steady_accessor _ _ _ HS), ?(system_accessor _ _ _ HS); reflexivity.
Qed.

Lemma expire_in_system n tm c w :
  nth_error (timers sys) n = Some tm ->
  refreshed enc c w (final (expire tm w)) \/ untouched c w (final (expire tm w)).
Proof.
  intros Hn. apply nth_error_In in Hn.
  destruct (timers_refresh _ _ _ HS tm c Hn) as [Hr | Hl]; [left | right]; auto.
Qed.

Lemma step_final_cases a c w :
  refreshed enc c w (final (step sys a w)) \/ untouched c w (final (step sys a w)).
Proof.
  destruct a as [n | cl]; unfold step.
  - destruct (nth_error (timers sys) n) as [tm |] eqn:Hn.
    + unfold bind; simpl. eapply expire_in_system; eauto.
    + right. apply untouched_refl.
  - right. unfold bind; simpl. rewrite perform_read_only. apply untouched_refl.
Qed.

(** Whatever happens, a counter that holds the latest reading of its clock
    keeps doing so, the clocks are the same clocks, and the number of readings
    taken does not go down. *)
Lemma run_holds_latest acts : forall c w,
  holds_latest enc c w ->
  holds_latest enc c (final (run sys acts w))
  /\ precise (final (run sys acts w)) = precise w
  /\ (reads c w <= reads c (final (run sys acts w)))%nat.
Proof.
  induction acts as [| a rest IH]; intros c w Hw.
  - simpl. auto.
  - simpl. unfold bind; simpl.
    destruct (step_final_cases a c w) as [Hr | Hu].
    + destruct (IH c _ (refreshed_holds_latest _ _ _ Hr)) as (H1 & H2 & H3).
      destruct Hr as (Hp & Hrd & _). rewrite H2, Hp. repeat split; auto; lia.
    + destruct (IH c _ (untouched_holds_latest _ _ _ Hu Hw)) as (H1 & H2 & H3).
      destruct Hu as (Hp & Hrd & _). rewrite H2, Hp. repeat split; auto; lia.
Qed.

(** A run made of calls only leaves the world as it found it. *)
Lemma calls_read_only cs : forall w, final (run sys (calls cs) w) = w.
Proof.
  induction cs as [| c rest IH]; intros w; simpl; [reflexivity |].
  unfold bind; simpl. rewrite perform_read_only. apply IH.
Qed.

End Discipline.

(** ** Each revision keeps to the discipline *)

Section Revisions.
Context `{Platform}.

Lemma read_time_update_refreshes c :
  refreshes raw_ticks c ReadTimeConversion.lowres_clock_impl.update.
Proof. intros w. destruct c; repeat split. Qed.

Lemma store_time_update_refreshes c :
  refreshes in_milliseconds c StoreTimeConversion.lowres_clock_impl.update.
Proof. intros w. destruct c; repeat split. Qed.

Lemma generic_update_refreshes c :
  refreshes raw_ticks c (Generic.clock_impl.update c).
Proof. intros w. destruct c; repeat split. Qed.

Lemma generic_update_leaves c c' :
  c <> c' -> leaves c' (Generic.clock_impl.update c).
Proof. intros Hne w. destruct c, c'; try congruence; repeat split. Qed.

Lemma spec_refresh_refreshes c :
  refreshes in_milliseconds c SpecDesign.refresh.
Proof. intros w. destruct c; repeat split. Qed.

Lemma read_time_boots :
  boots raw_ticks in_milliseconds ReadTimeConversion.boot.
Proof.
  intros w0. split.
  - constructor; try reflexivity.
    + intros tm c [<- | []]. left. apply read_time_update_refreshes.
    + eexists _, []. split; [reflexivity |].
      split; [apply read_time_update_refreshes | intros tm []].
  - intros c. destruct c; repeat split.
Qed.

Lemma store_time_boots :
  boots in_milliseconds raw_ticks StoreTimeConversion.boot.
Proof.
  intros w0. split.
  - constructor; try reflexivity.
    + intros tm c [<- | []]. left. apply store_time_update_refreshes.
    + eexists _, []. split; [reflexivity |].
      split; [apply store_time_update_refreshes | intros tm []].
  - intros c. destruct c; repeat split.
Qed.

Lemma generic_boots :
  boots raw_ticks in_milliseconds Generic.boot.
Proof.
  intros w0. split.
  - constructor; try reflexivity.
    + intros tm c [<- | [<- | []]]; destruct c;
        solve [ left; apply generic_update_refreshes
              | right; apply generic_update_leaves; discriminate ].
    + eexists _, [_]. split; [reflexivity |].
      split; [apply generic_update_refreshes |].
      intros tm [<- | []]. apply generic_update_leaves. discriminate.
  - intros c. destruct c; repeat split.
Qed.

Lemma spec_design_boots :
  boots in_milliseconds raw_ticks SpecDesign.construct.
Proof.
  intros w0. split.
  - constructor; try reflexivity.
    + intros tm c [<- | []]. left. apply spec_refresh_refreshes.
    + eexists _, []. split; [reflexivity |].
      split; [apply spec_refresh_refreshes | intros tm []].
  - intros c. destruct c; repeat split.
Qed.

End Revisions.

(** ** What the discipline gives *)

Section Consequences.
Context `{Platform}.

Lemma in_milliseconds_monotone c a b :
  at_least_millisecond (base_period c) ->
  a <= b -> in_milliseconds c a <= in_milliseconds c b.
Proof.
  unfold at_least_millisecond, in_milliseconds, duration_cast. intros Hn Hab.
  simpl. rewrite Hn.
  destruct (den (ratio_divide (base_period c) milli)) as [m | m |];
    try exact Hab; apply Z.quot_le_mono; lia.
Qed.

Lemma steady_counts_app l1 l2 :
  steady_counts (l1 ++ l2) = steady_counts l1 ++ steady_counts l2.
Proof.
  induction l1 as [| [t | t | s] l1 IH]; simpl; rewrite ?IH; reflexivity.
Qed.

Lemma run_cons sys a rest w :
  value (run sys (a :: rest) w)
  = value (step sys a w) ++ value (run sys rest (final (step sys a w)))
  /\ final (run sys (a :: rest) w) = final (run sys rest (final (step sys a w))).
Proof. split; reflexivity. Qed.

Lemma booted_unfold boot acts w0 :
  value (booted boot acts w0)
  = (value (boot w0), value (run (value (boot w0)) acts (final (boot w0))))
  /\ final (booted boot acts w0)
     = final (run (value (boot w0)) acts (final (boot w0))).
Proof. split; reflexivity. Qed.

Variables enc dec : base_clock -> Z -> Z.

Section OneSystem.
Variable sys : clock_system.
Hypothesis Hsys : implements enc dec sys.

Lemma accessors_decode w :
  count (time_since_epoch (value (lowres_clock_now sys w)))
    = dec steady_clock (counter steady_clock w)
  /\ count (time_since_epoch (value (lowres_system_clock_now sys w)))
    = dec system_clock (counter system_clock w).
Proof.
  rewrite (steady_accessor _ _ _ Hsys), (system_accessor _ _ _ Hsys).
  split; reflexivity.
Qed.

Lemma holds_latest_from_a_sample c w :
  holds_latest enc c w ->
  from_a_sample enc c w (dec c (counter c w)).
Proof.
  intros Hl. destruct (holds_latest_sampled enc c w Hl) as (ticks & Hs & Hc).
  exists ticks. repeat split; auto.
  rewrite Hc. apply (decodes _ _ _ Hsys).
Qed.

Lemma step_answers a w :
  steady_counts (value (step sys a w)) = []
  \/ steady_counts (value (step sys a w))
     = [dec steady_clock (counter steady_clock w)].
Proof.
  destruct a as [n | c]; unfold step.
  - left. destruct (nth_error (timers sys) n); reflexivity.
  - destruct c; unfold perform, bind; simpl; auto.
    right. rewrite (steady_accessor _ _ _ Hsys). reflexivity.
Qed.

(** One step never moves the decoded steady counter back. *)
Lemma step_steady_monotone a w :
  at_least_millisecond (base_period steady_clock) ->
  non_decreasing (precise w steady_clock) ->
  holds_latest enc steady_clock w ->
  dec steady_clock (counter steady_clock w)
  <= dec steady_clock (counter steady_clock (final (step sys a w))).
Proof.
  intros Hms Hmono (k & Hk & Hv).
  destruct (step_final_cases enc dec sys Hsys a steady_clock w)
    as [(Hp & Hr & Hc) | (Hp & Hr & Hc)].
  - rewrite Hv, Hc, !(decodes _ _ _ Hsys).
    apply in_milliseconds_monotone; [exact Hms |].
    apply Hmono. lia.
  - rewrite Hc. lia.
Qed.

Lemma step_keeps_latest a c w :
  holds_latest enc c w -> holds_latest enc c (final (step sys a w)).
Proof.
  intros Hl.
  destruct (step_final_cases enc dec sys Hsys a c w) as [Hr | Hu].
  - eapply refreshed_holds_latest; eauto.
  - eapply untouched_holds_latest; eauto.
Qed.

Lemma step_same_clocks a w :
  precise (final (step sys a w)) = precise w.
Proof.
  destruct (step_final_cases enc dec sys Hsys a steady_clock w)
    as [(Hp & _) | (Hp & _)]; exact Hp.
Qed.

Lemma run_steady_sorted acts : forall w,
  at_least_millisecond (base_period steady_clock) ->
  non_decreasing (precise w steady_clock) ->
  holds_latest enc steady_clock w ->
  StronglySorted Z.le (steady_counts (value (run sys acts w)))
  /\ Forall (Z.le (dec steady_clock (counter steady_clock w)))
            (steady_counts (value (run sys acts w))).
Proof.
  induction acts as [| a rest IH]; intros w Hms Hmono Hl.
  - simpl. split; constructor.
  - destruct (run_cons sys a rest w) as [-> _].
    rewrite steady_counts_app.
    pose proof (step_steady_monotone a w Hms Hmono Hl) as Hstep.
    destruct (IH (final (step sys a w)) Hms) as [Hsorted Hbound].
    { rewrite step_same_clocks. exact Hmono. }
    { apply step_keeps_latest. exact Hl. }
    assert (Hall : Forall (Z.le (dec steady_clock (counter steady_clock w)))
                     (steady_counts (value (run sys rest (final (step sys a w)))))).
    { eapply Forall_impl; [| exact Hbound]. cbv beta. intros x Hx. lia. }
    destruct (step_answers a w) as [-> | ->]; simpl.
    + split; assumption.
    + split; constructor; auto. lia.
Qed.

End OneSystem.

Variable boot : M clock_system.
Hypothesis Hboot : boots enc dec boot.

Lemma booted_holds_latest w0 c :
  holds_latest enc c (final (boot w0)).
Proof.
  destruct (Hboot w0) as [_ Hr]. eapply refreshed_holds_latest. apply Hr.
Qed.

Lemma boots_answers_are_samples : answers_are_samples enc boot.
Proof.
  intros w0 acts o sys w. subst o sys w.
  destruct (booted_unfold boot acts w0) as [-> ->]. simpl fst.
  destruct (Hboot w0) as [Hsys _].
  destruct (accessors_decode _ Hsys
              (final (run (value (boot w0)) acts (final (boot w0))))) as [-> ->].
  split; apply (holds_latest_from_a_sample _ Hsys);
    apply (run_holds_latest enc dec _ Hsys); apply booted_holds_latest.
Qed.

Lemma boots_steady_answers_sorted :
  at_least_millisecond (base_period steady_clock) ->
  steady_answers_sorted boot.
Proof.
  intros Hms w0 acts Hmono.
  destruct (booted_unfold boot acts w0) as [-> _]. simpl snd.
  destruct (Hboot w0) as [Hsys Hr].
  apply (run_steady_sorted _ Hsys); auto.
  - destruct (Hr steady_clock) as (-> & _). exact Hmono.
  - apply booted_holds_latest.
Qed.

Lemma boots_frozen_between_refreshes : frozen_between_refreshes boot.
Proof.
  intros w0 acts o sys w. subst o sys w.
  destruct (booted_unfold boot acts w0) as [-> ->]. simpl fst.
  destruct (Hboot w0) as [Hsys _].
  split; [| split].
  - intros cs w'. subst w'.
    rewrite (calls_read_only enc dec _ Hsys). split; reflexivity.
  - intros w1 w2 E. rewrite !(steady_accessor _ _ _ Hsys). simpl.
    rewrite E. reflexivity.
  - intros w1 w2 E. rewrite !(system_accessor _ _ _ Hsys). simpl.
    rewrite E. reflexivity.
Qed.

Lemma boots_calls_do_not_write : calls_do_not_write boot.
Proof.
  intros w0 acts c o sys w o'. subst o sys w o'.
  destruct (booted_unfold boot acts w0) as [-> ->]. simpl fst.
  destruct (Hboot w0) as [Hsys _].
  rewrite (perform_read_only enc dec _ Hsys).
  repeat split.
  destruct c; unfold perform, bind; simpl;
    rewrite ?(steady_accessor _ _ _ Hsys), ?(system_accessor _ _ _ Hsys);
    reflexivity.
Qed.

End Consequences.

(** ** Two revisions side by side *)

Section TwoSystems.
Context `{Platform}.
Variables enc1 dec1 enc2 dec2 : base_clock -> Z -> Z.

Section Running.
Variables sys1 sys2 : clock_system.
Hypothesis H1 : implements enc1 dec1 sys1.
Hypothesis H2 : implements enc2 dec2 sys2.

Lemma aligned_same_answer w1 w2 :
  aligned enc1 enc2 w1 w2 ->
  dec1 steady_clock (counter steady_clock w1)
  = dec2 steady_clock (counter steady_clock w2).
Proof.
  intros (Hp & Hr & (k1 & Hk1 & Hv1) & (k2 & Hk2 & Hv2)).
  rewrite Hv1, Hv2, (decodes _ _ _ H1), (decodes _ _ _ H2).
  assert (k1 = k2) as -> by congruence.
  rewrite Hp. reflexivity.
Qed.

(** In a system that keeps to the discipline, the timer that refreshes the
    steady counter is the first one. *)
Lemma expire_steady enc dec sys n w :
  implements enc dec sys ->
  match n with
  | O => refreshed enc steady_clock w (final (step sys (Expire n) w))
  | _ => untouched steady_clock w (final (step sys (Expire n) w))
  end.
Proof.
  intros Hsys.
  destruct (steady_timer _ _ _ Hsys) as (t0 & rest & Ht & Hr & Hl).
  unfold step. rewrite Ht. destruct n as [| m]; simpl.
  - apply Hr.
  - destruct (nth_error rest m) as [tm |] eqn:Hm.
    + apply nth_error_In in Hm. apply (Hl tm Hm).
    + repeat split.
Qed.

Lemma step_aligned a w1 w2 :
  aligned enc1 enc2 w1 w2 ->
  aligned enc1 enc2 (final (step sys1 a w1)) (final (step sys2 a w2))
  /\ steady_counts (value (step sys1 a w1))
     = steady_counts (value (step sys2 a w2)).
Proof.
  intros Ha. destruct a as [n | c].
  - split.
    + pose proof (expire_steady enc1 dec1 sys1 n w1 H1) as E1.
      pose proof (expire_steady enc2 dec2 sys2 n w2 H2) as E2.
      destruct Ha as (Hp & Hr & Hl1 & Hl2).
      destruct n as [| m].
      * pose proof (refreshed_holds_latest _ _ _ _ E1).
        pose proof (refreshed_holds_latest _ _ _ _ E2).
        destruct E1 as (Hp1 & Hr1 & _), E2 as (Hp2 & Hr2 & _).
        repeat split; auto; congruence.
      * pose proof (untouched_holds_latest _ _ _ _ E1 Hl1).
        pose proof (untouched_holds_latest _ _ _ _ E2 Hl2).
        destruct E1 as (Hp1 & Hr1 & _), E2 as (Hp2 & Hr2 & _).
        repeat split; auto; congruence.
    + unfold step.
      destruct (nth_error (timers sys1) n), (nth_error (timers sys2) n);
        reflexivity.
  - unfold step, bind; simpl.
    rewrite (perform_read_only enc1 dec1 _ H1), (perform_read_only enc2 dec2 _ H2).
    split; [exact Ha |].
    destruct c; unfold perform, bind; simpl; try reflexivity.
    rewrite (steady_accessor _ _ _ H1), (steady_accessor _ _ _ H2). simpl.
    f_equal. apply aligned_same_answer. exact Ha.
Qed.

Lemma run_aligned acts : forall w1 w2,
  aligned enc1 enc2 w1 w2 ->
  steady_counts (value (run sys1 acts w1))
  = steady_counts (value (run sys2 acts w2)).
Proof.
  induction acts as [| a rest IH]; intros w1 w2 Ha; [reflexivity |].
  destruct (run_cons sys1 a rest w1) as [-> _].
  destruct (run_cons sys2 a rest w2) as [-> _].
  rewrite !steady_counts_app.
  destruct (step_aligned a w1 w2 Ha) as [Ha' ->].
  f_equal. apply IH. exact Ha'.
Qed.

End Running.

Lemma boots_same_steady_answers boot1 boot2 :
  boots enc1 dec1 boot1 -> boots enc2 dec2 boot2 ->
  same_steady_answers boot1 boot2.
Proof.
  intros Hb1 Hb2 w0 acts.
  destruct (booted_unfold boot1 acts w0) as [-> _].
  destruct (booted_unfold boot2 acts w0) as [-> _]. simpl snd.
  destruct (Hb1 w0) as [Hs1 Hr1], (Hb2 w0) as [Hs2 Hr2].
  apply (run_aligned _ _ Hs1 Hs2).
  pose proof (refreshed_holds_latest _ _ _ _ (Hr1 steady_clock)).
  pose proof (refreshed_holds_latest _ _ _ _ (Hr2 steady_clock)).
  destruct (Hr1 steady_clock) as (Hp1 & Hrd1 & _).
  destruct (Hr2 steady_clock) as (Hp2 & Hrd2 & _).
  repeat split; auto; congruence.
Qed.

End TwoSystems.

(** ** The cache holds readings of the precise clocks *)

Example read_time_run :
  snd (value (booted (@ReadTimeConversion.boot libstdcxx)
                [Call call_lowres_clock_now; Expire 0;
                 Call call_lowres_clock_now; Call call_lowres_system_clock_now]
                example_world))
  = [steady_point (mk_time_point _ _ (mk_duration _ 3));
     steady_point (mk_time_point _ _ (mk_duration _ 13));
     system_point (mk_time_point _ _ (mk_duration _ 1700000000010))].
Proof. reflexivity. Qed.

Example store_time_run :
  steady_counts
    (snd (value (booted (@StoreTimeConversion.boot libstdcxx)
                   [Call call_lowres_clock_now; Expire 0; Expire 0;
                    Call call_lowres_clock_now]
                   example_world)))
  = [3; 23].
Proof. reflexivity. Qed.

(** In [lowres_clocks.hh] the second timer is the wall clock's: its expiry
    does not move [lowres_clock]. *)
Example generic_run :
  steady_counts
    (snd (value (booted (@Generic.boot libstdcxx)
                   [Call call_lowres_clock_now; Expire 1;
                    Call call_lowres_clock_now; Expire 0;
                    Call call_lowres_clock_now]
                   example_world)))
  = [3; 3; 13].
Proof. reflexivity. Qed.

(** C1, as stated, fails for the [lowres_system_clock] of
    [lowres_system_clock.hh]: on a machine whose wall clock is held at 1000 s
    while 50 ms pass on the steady clock, [now()] returns 1000.050 s.  No
    reading of the wall clock, taken or still to come, converts to that; and
    the answer moves with the steady counter alone. *)
Lemma lowres_system_clock_now_follows_steady_clock :
  let _base := mk_duration nano 1000000000000 in
  let _ref := mk_duration milli 0 in
  let now := @SteadyDerived.lowres_system_clock.now libstdcxx _base _ref in
  count (time_since_epoch (value (now held_wall_clock_world))) = 1000050
  /\ (forall k,
        count (time_since_epoch (value (now held_wall_clock_world)))
        <> @in_milliseconds libstdcxx system_clock
             (precise held_wall_clock_world system_clock k))
  /\ ~ (exists ticks,
          sampled system_clock held_wall_clock_world ticks
          /\ count (time_since_epoch (value (now held_wall_clock_world)))
             = @in_milliseconds libstdcxx system_clock ticks)
  /\ count (time_since_epoch
              (value (now (set_counter steady_clock 70 held_wall_clock_world))))
     = 1000070.
Proof.
  cbv zeta. split; [reflexivity | split; [| split]].
  - intros k. vm_compute. discriminate.
  - intros (ticks & (k & _ & <-) & E). vm_compute in E. discriminate E.
  - reflexivity.
Qed.

(** C1, amended.  In both revisions of [lowres_clock.hh] and in
    [lowres_clocks.hh], at any moment after construction each counter holds a
    reading that its own precise clock handed out at an earlier refresh (as
    it came, or converted to milliseconds in the second revision), and
    [lowres_clock::now()] and [lowres_system_clock::now()] return the
    millisecond count of that reading.  In [lowres_system_clock.hh] the
    system time is [_base] plus the time [lowres_clock] has advanced since
    [_ref]: a function of the steady counter and those two constants. *)
Theorem cached_values_are_precise_readings `{Platform} :
  answers_are_samples raw_ticks ReadTimeConversion.boot
  /\ answers_are_samples in_milliseconds StoreTimeConversion.boot
  /\ answers_are_samples raw_ticks Generic.boot
  /\ (forall _base _ref w,
        SteadyDerived.lowres_system_clock.now _base _ref w
        = mk_outcome
            (mk_time_point LowresSystemClock milli
               (duration_cast milli
                  (duration_add _base
                     (duration_cast (base_period system_clock)
                        (duration_sub (mk_duration milli (_steady_count w))
                                      _ref)))))
            w [Load steady_clock (_steady_count w)]).
Proof.
  split; [| split; [| split]].
  - apply (boots_answers_are_samples _ _ _ read_time_boots).
  - apply (boots_answers_are_samples _ _ _ store_time_boots).
  - apply (boots_answers_are_samples _ _ _ generic_boots).
  - reflexivity.
Qed.

(** ** What a refresh does *)

(** C2, as stated, fails for the first revision of [lowres_clock.hh] and for
    [lowres_clocks.hh]: with nanosecond clocks, a wall reading of 5 ms is
    stored as 5000000, not as the millisecond count 5; and an [update()] of
    [clock_impl<steady_clock, ...>] reads and stores the steady clock only. *)
Lemma update_stores_native_ticks :
  let w := mk_world 0 0 0 0
             (fun c _ => match c with
                         | steady_clock => 7000000
                         | system_clock => 5000000
                         end) in
  counter system_clock
    (final (@ReadTimeConversion.lowres_clock_impl.update libstdcxx w))
  <> @in_milliseconds libstdcxx system_clock
       (precise w system_clock (reads system_clock w))
  /\ emitted (@ReadTimeConversion.lowres_clock_impl.update libstdcxx w)
     = [Now system_clock 5000000; Now steady_clock 7000000;
        Store system_clock 5000000; Store steady_clock 7000000]
  /\ emitted (@Generic.clock_impl.update libstdcxx steady_clock w)
     = [Now steady_clock 7000000; Store steady_clock 7000000].
Proof.
  cbv zeta. split; [| split]; [vm_compute; discriminate | reflexivity ..].
Qed.

(** C2, amended.  Every [update()] of [lowres_clock.hh] reads the wall clock
    once, then the steady clock once, and stores one count per counter: the
    readings as they came in the first revision (it is [now()] that converts
    them to milliseconds), their millisecond counts in the second.  Every
    [update()] of a [clock_impl] of [lowres_clocks.hh] reads its own precise
    clock once and stores the reading as it came in its own counter, leaving
    the other clock and counter alone. *)
Theorem update_reads_once_and_stores `{Platform} (w : world) :
  let s := precise w system_clock (reads system_clock w) in
  let t := precise w steady_clock (reads steady_clock w) in
  (emitted (ReadTimeConversion.lowres_clock_impl.update w)
   = [Now system_clock s; Now steady_clock t;
      Store system_clock s; Store steady_clock t]
   /\ (forall c, refreshed raw_ticks c w
                   (final (ReadTimeConversion.lowres_clock_impl.update w)))
   /\ (forall c,
         count (value (perform_now ReadTimeConversion.lowres_clock.now
                         ReadTimeConversion.lowres_system_clock.now c
                         (final (ReadTimeConversion.lowres_clock_impl.update w))))
         = in_milliseconds c (precise w c (reads c w))))
  /\ (emitted (StoreTimeConversion.lowres_clock_impl.update w)
      = [Now system_clock s; Now steady_clock t;
         Store system_clock (in_milliseconds system_clock s);
         Store steady_clock (in_milliseconds steady_clock t)]
      /\ forall c, refreshed in_milliseconds c w
                     (final (StoreTimeConversion.lowres_clock_impl.update w)))
  /\ (forall c,
        let r := precise w c (reads c w) in
        emitted (Generic.clock_impl.update c w) = [Now c r; Store c r]
        /\ refreshed raw_ticks c w (final (Generic.clock_impl.update c w))
        /\ forall c', c' <> c ->
             untouched c' w (final (Generic.clock_impl.update c w))).
Proof.
  cbv zeta. split; [| split].
  - split; [reflexivity | split].
    + intros c. apply read_time_update_refreshes.
    + intros c. destruct c; reflexivity.
  - split; [reflexivity |].
    intros c. apply store_time_update_refreshes.
  - intros c. split; [destruct c; reflexivity | split].
    + apply generic_update_refreshes.
    + intros c' Hne. apply generic_update_leaves. congruence.
Qed.

(** ** Construction *)

(** With [k] ticks of the precise clock to the millisecond, the millisecond
    count of a reading is zero exactly for the readings less than a
    millisecond from the epoch, on either side. *)
Lemma in_milliseconds_zero `{Platform} (c : base_clock) (k : positive)
    (ticks : Z) :
  ratio_divide (base_period c) milli = mk_ratio 1 k ->
  in_milliseconds c ticks = 0 <-> - Z.pos k < ticks < Z.pos k.
Proof.
  intros Hk. unfold in_milliseconds, duration_cast. simpl. rewrite Hk. simpl.
  destruct k as [q | q |]; try (rewrite Z.quot_small_iff by lia; lia).
  lia.
Qed.

(** C3, as stated, fails: a machine that constructs the clocks 999999 ns after
    the epoch of its steady clock gets zero from the first
    [lowres_clock::now()], in both revisions of [lowres_clock.hh] and in
    [lowres_clocks.hh], although the refresh has been made and has stored the
    reading.  The answer is the one the zero-initialised counter gave before
    construction. *)
Lemma lowres_clock_now_zero_after_construction :
  let w0 := just_started_world in
  let zero := mk_time_point LowresClock milli (mk_duration milli 0) in
  precise w0 steady_clock (reads steady_clock w0) = 999999
  /\ value (@ReadTimeConversion.lowres_clock.now libstdcxx
              (final (@ReadTimeConversion.lowres_clock_impl.construct
                        libstdcxx w0)))
     = zero
  /\ value (StoreTimeConversion.lowres_clock.now
              (final (@StoreTimeConversion.lowres_clock_impl.construct
                        libstdcxx w0)))
     = zero
  /\ value (@Generic.lowres_clock.now libstdcxx
              (final (@Generic.lowres_clock.construct libstdcxx w0)))
     = zero
  /\ _steady_count
       (final (@ReadTimeConversion.lowres_clock_impl.construct libstdcxx w0))
     = 999999
  /\ value (@ReadTimeConversion.lowres_clock.now libstdcxx w0) = zero.
Proof. cbv zeta. repeat split; reflexivity. Qed.

(** C3, amended.  Constructing the refresher ([lowres_clock_impl] in both
    revisions of [lowres_clock.hh], any [clock_impl] of [lowres_clocks.hh])
    refreshes once, then sets the timer's callback to [update] and arms it.
    Whatever the counters held before, the first [now()] after construction
    returns the millisecond count of the reading taken by that refresh.  With
    [k] ticks of the precise clock to the millisecond, it is zero exactly when
    that reading is less than a millisecond from the clock's epoch. *)
Theorem construction_refreshes_before_arming `{Platform} (w0 : world) :
  let s := precise w0 system_clock (reads system_clock w0) in
  let t := precise w0 steady_clock (reads steady_clock w0) in
  let zero_near_epoch (c : base_clock) (first : Z) :=
    forall k : positive,
      ratio_divide (base_period c) milli = mk_ratio 1 k ->
      first = 0
      <-> - Z.pos k < precise w0 c (reads c w0) < Z.pos k in
  (let o := ReadTimeConversion.lowres_clock_impl.construct w0 in
   emitted o
   = [Now system_clock s; Now steady_clock t;
      Store system_clock s; Store steady_clock t;
      SetCallback; ArmPeriodic (mk_duration milli 10)]
   /\ expire (ReadTimeConversion.lowres_clock_impl._timer (value o))
      = ReadTimeConversion.lowres_clock_impl.update
   /\ forall c a b,
        let o' := ReadTimeConversion.lowres_clock_impl.construct
                    (set_counter steady_clock a
                       (set_counter system_clock b w0)) in
        let first := count (value (perform_now
                                     ReadTimeConversion.lowres_clock.now
                                     ReadTimeConversion.lowres_system_clock.now
                                     c (final o'))) in
        first = in_milliseconds c (precise w0 c (reads c w0))
        /\ zero_near_epoch c first)
  /\ (let o := StoreTimeConversion.lowres_clock_impl.construct w0 in
      emitted o
      = [Now system_clock s; Now steady_clock t;
         Store system_clock (in_milliseconds system_clock s);
         Store steady_clock (in_milliseconds steady_clock t);
         SetCallback; ArmPeriodic (mk_duration milli 10)]
      /\ expire (StoreTimeConversion.lowres_clock_impl._timer (value o))
         = StoreTimeConversion.lowres_clock_impl.update
      /\ forall c a b,
           let o' := StoreTimeConversion.lowres_clock_impl.construct
                       (set_counter steady_clock a
                          (set_counter system_clock b w0)) in
           let first := count (value (perform_now
                                        StoreTimeConversion.lowres_clock.now
                                        StoreTimeConversion.lowres_system_clock.now
                                        c (final o'))) in
           first = in_milliseconds c (precise w0 c (reads c w0))
           /\ zero_near_epoch c first)
  /\ (forall c granularity (Clock : cached_clock),
        let o := Generic.clock_impl.construct c granularity w0 in
        let r := precise w0 c (reads c w0) in
        emitted o = [Now c r; Store c r; SetCallback; ArmPeriodic granularity]
        /\ expire (Generic.clock_impl._timer (value o))
           = Generic.clock_impl.update c
        /\ forall a b,
             let o' := Generic.clock_impl.construct c granularity
                         (set_counter steady_clock a
                            (set_counter system_clock b w0)) in
             let first := count (time_since_epoch
                                   (value (Generic.clock_impl.now c Clock milli
                                             (final o')))) in
             first = in_milliseconds c r
             /\ zero_near_epoch c first).
Proof.
  cbv zeta. split; [| split].
  - split; [reflexivity | split; [reflexivity |]].
    intros c a b.
    destruct c; (split; [reflexivity |]);
      intros k Hk; exact (in_milliseconds_zero _ k _ Hk).
  - split; [reflexivity | split; [reflexivity |]].
    intros c a b.
    destruct c; (split; [reflexivity |]);
      intros k Hk; exact (in_milliseconds_zero _ k _ Hk).
  - intros c granularity Clock.
    destruct c; (split; [reflexivity | split; [reflexivity |]]);
      intros a b; (split; [reflexivity |]);
      intros k Hk; exact (in_milliseconds_zero _ k _ Hk).
Qed.

Lemma construction_refreshes_before_arming_witness :
  let w0 := just_started_world in
  count (value (perform_now
                  (@ReadTimeConversion.lowres_clock.now libstdcxx)
                  (@ReadTimeConversion.lowres_system_clock.now libstdcxx)
                  steady_clock
                  (final (@ReadTimeConversion.lowres_clock_impl.construct
                            libstdcxx
                            (set_counter steady_clock 7
                               (set_counter system_clock 9 w0))))))
  = 0
  <-> - 1000000 < precise w0 steady_clock (reads steady_clock w0) < 1000000.
Proof.
  exact (proj2
           (proj2 (proj2 (proj1
              (@construction_refreshes_before_arming libstdcxx
                 just_started_world)))
              steady_clock 7 9)
           1000000%positive eq_refl).
Defined.

Example first_now_after_construction :
  value (@ReadTimeConversion.lowres_clock.now libstdcxx
           (final (@ReadTimeConversion.lowres_clock_impl.construct libstdcxx
                     example_world)))
  = mk_time_point LowresClock milli (mk_duration milli 3).
Proof. reflexivity. Qed.

(** ** Reading the clocks *)

(** C4.  Over a steady clock that never goes back, and whose ticks divide the
    millisecond, the answers of [lowres_clock::now()] in any run (calls
    interleaved with timer expiries in any way) are in non-decreasing order:
    each is no greater than any later one.  This holds in both revisions of
    [lowres_clock.hh] and in [lowres_clocks.hh]. *)
Theorem lowres_clock_now_never_goes_back `{Platform} :
  at_least_millisecond (base_period steady_clock) ->
  steady_answers_sorted ReadTimeConversion.boot
  /\ steady_answers_sorted StoreTimeConversion.boot
  /\ steady_answers_sorted Generic.boot.
Proof.
  intros Hms. split; [| split].
  - apply (boots_steady_answers_sorted _ _ _ read_time_boots Hms).
  - apply (boots_steady_answers_sorted _ _ _ store_time_boots Hms).
  - apply (boots_steady_answers_sorted _ _ _ generic_boots Hms).
Qed.

Lemma example_world_steady_clock_non_decreasing :
  non_decreasing (precise example_world steady_clock).
Proof. intros i j Hij. unfold example_world, precise. lia. Defined.

Lemma lowres_clock_now_never_goes_back_witness :
  at_least_millisecond (@base_period libstdcxx steady_clock)
  /\ StronglySorted Z.le
       (steady_counts
          (snd (value (booted (@ReadTimeConversion.boot libstdcxx)
                         [Call call_lowres_clock_now; Expire 0;
                          Call call_lowres_clock_now; Expire 0; Expire 1;
                          Call call_lowres_clock_now]
                         example_world)))).
Proof.
  split; [reflexivity |].
  apply (proj1 (@lowres_clock_now_never_goes_back libstdcxx eq_refl)).
  exact example_world_steady_clock_non_decreasing.
Defined.

(** C5.  In both revisions of [lowres_clock.hh] and in [lowres_clocks.hh],
    what [lowres_clock::now()] and [lowres_system_clock::now()] return is a
    function of the counter alone, and any number of calls made without a
    timer expiry in between leaves it unchanged: two calls with no refresh
    between them return the same time point. *)
Theorem now_frozen_between_refreshes `{Platform} :
  frozen_between_refreshes ReadTimeConversion.boot
  /\ frozen_between_refreshes StoreTimeConversion.boot
  /\ frozen_between_refreshes Generic.boot.
Proof.
  split; [| split].
  - apply (boots_frozen_between_refreshes _ _ _ read_time_boots).
  - apply (boots_frozen_between_refreshes _ _ _ store_time_boots).
  - apply (boots_frozen_between_refreshes _ _ _ generic_boots).
Qed.

(** C7.  Holding the same steady reading (as it came in the first revision
    of [lowres_clock.hh] and in [lowres_clocks.hh], as a millisecond count in
    the second revision), the three [lowres_clock::now()] return the same time
    point; and booted in the same world and put through the same actions, the
    three revisions and the unified design of the specification answer
    [lowres_clock::now()] alike, call by call. *)
Theorem lowres_clock_now_revisions_agree `{Platform} :
  (forall w ticks,
     value (ReadTimeConversion.lowres_clock.now
              (set_counter steady_clock ticks w))
     = value (StoreTimeConversion.lowres_clock.now
                (set_counter steady_clock
                   (in_milliseconds steady_clock ticks) w))
     /\ value (ReadTimeConversion.lowres_clock.now
                 (set_counter steady_clock ticks w))
        = value (Generic.lowres_clock.now (set_counter steady_clock ticks w)))
  /\ same_steady_answers ReadTimeConversion.boot StoreTimeConversion.boot
  /\ same_steady_answers ReadTimeConversion.boot Generic.boot
  /\ same_steady_answers StoreTimeConversion.boot Generic.boot
  /\ same_steady_answers ReadTimeConversion.boot SpecDesign.construct
  /\ same_steady_answers StoreTimeConversion.boot SpecDesign.construct
  /\ same_steady_answers Generic.boot SpecDesign.construct.
Proof.
  split; [intros w ticks; split; reflexivity |].
  repeat split.
  - apply (boots_same_steady_answers _ _ _ _ _ _ read_time_boots store_time_boots).
  - apply (boots_same_steady_answers _ _ _ _ _ _ read_time_boots generic_boots).
  - apply (boots_same_steady_answers _ _ _ _ _ _ store_time_boots generic_boots).
  - apply (boots_same_steady_answers _ _ _ _ _ _ read_time_boots spec_design_boots).
  - apply (boots_same_steady_answers _ _ _ _ _ _ store_time_boots spec_design_boots).
  - apply (boots_same_steady_answers _ _ _ _ _ _ generic_boots spec_design_boots).
Qed.

(** ** The accessors and the calendar conversions leave the cache alone *)

(** C8.  [from_time_t s] is the same time point in any two systems and any
    two worlds, whatever their counters and clocks: it is made from [s] alone,
    and the call loads nothing and leaves the world as it is. *)
Theorem from_time_t_depends_on_its_argument_only
    (s : Z) (sys1 sys2 : clock_system) (w1 w2 : world) :
  value (perform sys1 (call_from_time_t s) w1)
  = value (perform sys2 (call_from_time_t s) w2)
  /\ perform sys1 (call_from_time_t s) w1
     = mk_outcome (system_point (from_time_t s)) w1 [].
Proof. split; reflexivity. Qed.

(** C9.  In both revisions of [lowres_clock.hh] and in [lowres_clocks.hh], at
    any moment of any run, none of [lowres_clock::now()],
    [lowres_system_clock::now()], [to_time_t] and [from_time_t] changes either
    counter or emits a store; [update()] is what stores.  The same holds of
    the accessor of [lowres_system_clock.hh]. *)
Theorem accessors_never_write `{Platform} :
  calls_do_not_write ReadTimeConversion.boot
  /\ calls_do_not_write StoreTimeConversion.boot
  /\ calls_do_not_write Generic.boot
  /\ (forall _base _ref w,
        let o := SteadyDerived.lowres_system_clock.now _base _ref w in
        final o = w /\ existsb is_store (emitted o) = false)
  /\ (forall w,
        existsb is_store (emitted (ReadTimeConversion.lowres_clock_impl.update w))
        = true
        /\ existsb is_store
             (emitted (StoreTimeConversion.lowres_clock_impl.update w)) = true
        /\ forall c,
             existsb is_store (emitted (Generic.clock_impl.update c w)) = true).
Proof.
  split; [| split; [| split; [| split]]].
  - apply (boots_calls_do_not_write _ _ _ read_time_boots).
  - apply (boots_calls_do_not_write _ _ _ store_time_boots).
  - apply (boots_calls_do_not_write _ _ _ generic_boots).
  - intros _base _ref w. split; reflexivity.
  - intros w. split; [reflexivity | split; [reflexivity |]].
    intros c; destruct c; reflexivity.
Qed.

(** * Further properties of the clocks *)

(** ** Freshness and cost of the cache *)

Section Freshness.
Context `{Platform}.

Lemma boots_answers_are_latest enc dec boot :
  boots enc dec boot -> answers_are_latest boot.
Proof.
  intros Hboot w0 acts c o sys w. subst o sys w.
  destruct (booted_unfold boot acts w0) as [-> ->]. simpl fst.
  destruct (Hboot w0) as [Hsys Hr].
  pose proof (refreshed_holds_latest enc c _ _ (Hr c)) as Hl.
  destruct (run_holds_latest enc dec _ Hsys acts c _ Hl) as ((k & Hk & Hv) & Hp & _).
  exists k. split; [exact Hk |].
  destruct (Hr c) as (Hp0 & _).
  rewrite Hp, Hp0 in Hv.
  destruct c; unfold perform_now, bind; simpl;
    rewrite ?(steady_accessor _ _ _ Hsys), ?(system_accessor _ _ _ Hsys);
    simpl in *; rewrite Hv; apply (decodes _ _ _ Hsys).
Qed.

Lemma run_reads enc dec sys (timer_of : base_clock -> nat) :
  implements enc dec sys ->
  (forall c n w,
     reads c (final (step sys (Expire n) w))
     = (reads c w + (if Nat.eqb n (timer_of c) then 1 else 0))%nat) ->
  forall acts c w,
    reads c (final (run sys acts w))
    = (reads c w + expiries (timer_of c) acts)%nat.
Proof.
  intros Hsys Hstep acts. induction acts as [| a rest IH]; intros c w.
  - simpl. lia.
  - destruct (run_cons sys a rest w) as [_ ->]. rewrite IH.
    destruct a as [n | cl].
    + rewrite Hstep. simpl. destruct (Nat.eqb n (timer_of c)); lia.
    + simpl. unfold bind; simpl.
      rewrite (perform_read_only enc dec _ Hsys). reflexivity.
Qed.

Lemma boots_reads_once_per_expiry enc dec boot timer_of :
  boots enc dec boot ->
  (forall w0 c n w,
     reads c (final (step (value (boot w0)) (Expire n) w))
     = (reads c w + (if Nat.eqb n (timer_of c) then 1 else 0))%nat) ->
  reads_once_per_expiry boot timer_of.
Proof.
  intros Hboot Hstep w0 acts c.
  destruct (booted_unfold boot acts w0) as [_ ->].
  destruct (Hboot w0) as [Hsys Hr].
  rewrite (run_reads _ _ _ timer_of Hsys (Hstep w0)).
  destruct (Hr c) as (_ & -> & _). reflexivity.
Qed.

End Freshness.

(** X1.  At any moment of any run, in both revisions of [lowres_clock.hh] and
    in [lowres_clocks.hh], [lowres_clock::now()] and
    [lowres_system_clock::now()] return the millisecond count of the latest
    reading taken from their precise clock: the cache is never older than the
    last refresh. *)
Theorem now_returns_latest_reading `{Platform} :
  answers_are_latest ReadTimeConversion.boot
  /\ answers_are_latest StoreTimeConversion.boot
  /\ answers_are_latest Generic.boot.
Proof.
  split; [| split].
  - apply (boots_answers_are_latest _ _ _ read_time_boots).
  - apply (boots_answers_are_latest _ _ _ store_time_boots).
  - apply (boots_answers_are_latest _ _ _ generic_boots).
Qed.

(** X2.  The precise clocks are read by refreshes only: once at construction
    and once per timer expiry, never by a call.  In [lowres_clock.hh] the one
    timer reads both clocks; in [lowres_clocks.hh] the first timer reads the
    steady clock and the second the wall clock. *)
Theorem precise_clocks_read_once_per_expiry `{Platform} :
  reads_once_per_expiry ReadTimeConversion.boot (fun _ => O)
  /\ reads_once_per_expiry StoreTimeConversion.boot (fun _ => O)
  /\ reads_once_per_expiry Generic.boot
       (fun c => match c with steady_clock => 0%nat | system_clock => 1%nat end).
Proof.
  split; [| split].
  - apply (boots_reads_once_per_expiry _ _ _ _ read_time_boots).
    intros w0 c [| [| n]] w; destruct c; simpl; lia.
  - apply (boots_reads_once_per_expiry _ _ _ _ store_time_boots).
    intros w0 c [| [| n]] w; destruct c; simpl; lia.
  - apply (boots_reads_once_per_expiry _ _ _ _ generic_boots).
    intros w0 c [| [| [| n]]] w; destruct c; simpl; lia.
Qed.

(** ** The two revisions of [lowres_clock.hh] side by side *)

Section ReadTimeAgainstStoreTime.
Context `{Platform}.

Lemma converted_step w0 a w1 w2 :
  converted w1 w2 ->
  converted (final (step (value (ReadTimeConversion.boot w0)) a w1))
            (final (step (value (StoreTimeConversion.boot w0)) a w2))
  /\ value (step (value (ReadTimeConversion.boot w0)) a w1)
     = value (step (value (StoreTimeConversion.boot w0)) a w2).
Proof.
  intros (Hp & Hr & Hc).
  pose proof (Hr steady_clock) as Hrs. pose proof (Hr system_clock) as Hrw.
  pose proof (Hc steady_clock) as Hcs. pose proof (Hc system_clock) as Hcw.
  destruct a as [[| n] | cl].
  - split; [| reflexivity]. simpl in *.
    split; [exact Hp | split]; intros c; destruct c; simpl;
      rewrite ?Hrs, ?Hrw, ?Hp; reflexivity.
  - split; [| destruct n; reflexivity].
    destruct n; simpl; (split; [exact Hp | split; assumption]).
  - split.
    + destruct cl; simpl; (split; [exact Hp | split; assumption]).
    + destruct cl; simpl in *; try reflexivity.
      * do 2 f_equal. apply ChronoFacts.time_point_eq. simpl. symmetry. exact Hcs.
      * do 2 f_equal. apply ChronoFacts.time_point_eq. simpl. symmetry. exact Hcw.
Qed.

Lemma converted_run w0 acts : forall w1 w2,
  converted w1 w2 ->
  value (run (value (ReadTimeConversion.boot w0)) acts w1)
  = value (run (value (StoreTimeConversion.boot w0)) acts w2).
Proof.
  induction acts as [| a rest IH]; intros w1 w2 Hc; [reflexivity |].
  destruct (run_cons (value (ReadTimeConversion.boot w0)) a rest w1) as [-> _].
  destruct (run_cons (value (StoreTimeConversion.boot w0)) a rest w2) as [-> _].
  destruct (converted_step w0 a w1 w2 Hc) as [Hc' ->].
  f_equal. apply IH. exact Hc'.
Qed.

Lemma converted_after_boot w0 :
  converted (final (ReadTimeConversion.boot w0))
            (final (StoreTimeConversion.boot w0)).
Proof.
  split; [reflexivity | split]; intros c; destruct c; reflexivity.
Qed.

End ReadTimeAgainstStoreTime.

(** X3.  The two revisions of [lowres_clock.hh] cannot be told apart: booted
    in the same world and put through the same timer expiries and calls, they
    give the same answer to every call ([lowres_clock::now()],
    [lowres_system_clock::now()], [to_time_t], [from_time_t]). *)
Theorem lowres_clock_hh_revisions_same_answers `{Platform} :
  same_answers ReadTimeConversion.boot StoreTimeConversion.boot.
Proof.
  intros w0 acts.
  destruct (booted_unfold ReadTimeConversion.boot acts w0) as [-> _].
  destruct (booted_unfold StoreTimeConversion.boot acts w0) as [-> _].
  simpl snd. apply (converted_run w0). apply converted_after_boot.
Qed.

(** ** Ratios and casts between a precise clock and milliseconds *)

Module RatioFacts.

Lemma std_ratio_swap n d :
  std_ratio d n = mk_ratio (den (std_ratio n d)) (num (std_ratio n d)).
Proof.
  unfold std_ratio.
  pose proof (Pos.ggcd_correct_divisors n d) as Hnd.
  pose proof (Pos.ggcd_correct_divisors d n) as Hdn.
  pose proof (Pos.ggcd_gcd n d) as Gnd.
  pose proof (Pos.ggcd_gcd d n) as Gdn.
  destruct (Pos.ggcd n d) as [g [n' d']].
  destruct (Pos.ggcd d n) as [g' [d'' n'']].
  simpl in *. destruct Hnd as [Hn Hd], Hdn as [Hd' Hn'].
  assert (Hg : g' = g).
  { apply Pos2Z.inj. rewrite Gnd, Gdn, !Pos2Z.inj_gcd. apply Z.gcd_comm. }
  rewrite Hg in Hn', Hd'.
  assert (En : n'' = n') by (apply (Pos.mul_reg_l _ _ g); congruence).
  assert (Ed : d'' = d') by (apply (Pos.mul_reg_l _ _ g); congruence).
  rewrite En, Ed. reflexivity.
Qed.

(** [ratio_divide<R2, R1>] is [ratio_divide<R1, R2>] upside down. *)
Lemma ratio_divide_swap r1 r2 :
  ratio_divide r2 r1
  = mk_ratio (den (ratio_divide r1 r2)) (num (ratio_divide r1 r2)).
Proof.
  unfold ratio_divide.
  rewrite (Pos.mul_comm (num r2) (den r1)), (Pos.mul_comm (den r2) (num r1)).
  apply std_ratio_swap.
Qed.

Section Casts.
Context `{Platform}.
Variable c : base_clock.
Variable k : positive.
Hypothesis Hk : ratio_divide (base_period c) milli = mk_ratio 1 k.

(** With [k] ticks of the precise clock to the millisecond, the cast to
    milliseconds divides by [k]... *)
Lemma in_milliseconds_quot ticks :
  in_milliseconds c ticks = ticks ÷ Z.pos k.
Proof.
  unfold in_milliseconds, duration_cast. simpl. rewrite Hk. simpl.
  destruct k; try reflexivity. symmetry. apply Z.quot_1_r.
Qed.

(** ... and the cast from milliseconds multiplies by [k]. *)
Lemma from_milliseconds_mul (d : milliseconds) :
  Int64.in_range (count d * Z.pos k) ->
  count (duration_cast (base_period c) d) = count d * Z.pos k.
Proof.
  intros Hr. unfold duration_cast. simpl.
  rewrite (ratio_divide_swap (base_period c) milli), Hk. simpl.
  destruct k; try (apply Int64Facts.wrap_small; exact Hr). lia.
Qed.

(** Below the reading by less than one millisecond. *)
Lemma in_milliseconds_lag ticks :
  0 <= ticks ->
  in_milliseconds c ticks * Z.pos k <= ticks
  < (in_milliseconds c ticks + 1) * Z.pos k.
Proof.
  intros Hpos. rewrite in_milliseconds_quot.
  pose proof (Z.quot_rem' ticks (Z.pos k)).
  pose proof (Z.rem_bound_pos ticks (Z.pos k) Hpos ltac:(lia)). lia.
Qed.

End Casts.

End RatioFacts.

(** ** The system clock computed from the steady one *)

Section SteadyDerivedFacts.
Context `{Platform}.
Variable k : positive.
Hypothesis Hk : ratio_divide (base_period system_clock) milli = mk_ratio 1 k.

(** As long as nothing leaves the 64-bit range, [now()] is [_base] plus the
    elapsed milliseconds in ticks of the wall clock, cast to milliseconds. *)
Lemma steady_derived_now_count _base _ref w :
  Int64.in_range (_steady_count w - count _ref) ->
  Int64.in_range ((_steady_count w - count _ref) * Z.pos k) ->
  Int64.in_range (count _base + (_steady_count w - count _ref) * Z.pos k) ->
  count (time_since_epoch
           (value (SteadyDerived.lowres_system_clock.now _base _ref w)))
  = (count _base + (_steady_count w - count _ref) * Z.pos k) ÷ Z.pos k.
Proof.
  intros H1 H2 H3.
  change (count (time_since_epoch
                   (value (SteadyDerived.lowres_system_clock.now _base _ref w))))
    with (in_milliseconds system_clock
            (count (duration_add _base
                      (duration_cast (base_period system_clock)
                         (duration_sub (mk_duration milli (_steady_count w))
                                       _ref))))).
  rewrite (RatioFacts.in_milliseconds_quot system_clock k Hk).
  unfold duration_add.
  assert (E : count (duration_sub (mk_duration milli (_steady_count w)) _ref)
              = _steady_count w - count _ref).
  { unfold duration_sub. simpl. apply Int64Facts.wrap_small. exact H1. }
  rewrite (RatioFacts.from_milliseconds_mul system_clock k Hk) by (rewrite E; exact H2).
  rewrite E. simpl. rewrite Int64Facts.wrap_small by exact H3. reflexivity.
Qed.

End SteadyDerivedFacts.

(** X4.  In [lowres_system_clock.hh], with a wall clock of [k] ticks to the
    millisecond, a reference time [_base] not before the epoch and a
    [lowres_clock] that has not gone back since [_ref],
    [lowres_system_clock::now()] is the millisecond count of [_base] plus
    exactly the milliseconds [lowres_clock] has advanced since [_ref] (as long
    as the sum fits the 64-bit [rep]). *)
Theorem lowres_system_clock_is_base_plus_elapsed `{Platform}
    (k : positive) (_base : duration (base_period system_clock))
    (_ref : milliseconds) (w : world) :
  ratio_divide (base_period system_clock) milli = mk_ratio 1 k ->
  0 <= count _base ->
  0 <= _steady_count w - count _ref ->
  Int64.in_range (count _base + (_steady_count w - count _ref) * Z.pos k) ->
  count (time_since_epoch
           (value (SteadyDerived.lowres_system_clock.now _base _ref w)))
  = in_milliseconds system_clock (count _base)
    + (_steady_count w - count _ref).
Proof.
  intros Hk Hb He Hr.
  assert (Hr' := Hr). unfold Int64.in_range, Int64.min_signed, Int64.max_signed in Hr'.
  rewrite (steady_derived_now_count k Hk); try exact Hr;
    try (unfold Int64.in_range, Int64.min_signed, Int64.max_signed; nia).
  rewrite (RatioFacts.in_milliseconds_quot system_clock k Hk).
  rewrite !Z.quot_div_nonneg by nia.
  apply Z.div_add. lia.
Qed.

Lemma lowres_system_clock_is_base_plus_elapsed_witness :
  count (time_since_epoch
           (value (@SteadyDerived.lowres_system_clock.now libstdcxx
                     (mk_duration nano 1000000000999) (mk_duration milli 20)
                     held_wall_clock_world)))
  = @in_milliseconds libstdcxx system_clock 1000000000999 + (50 - 20).
Proof.
  apply (@lowres_system_clock_is_base_plus_elapsed libstdcxx 1000000
           (mk_duration nano 1000000000999) (mk_duration milli 20)
           held_wall_clock_world).
  - reflexivity.
  - simpl. lia.
  - simpl. lia.
  - unfold Int64.in_range, Int64.min_signed, Int64.max_signed. simpl. lia.
Defined.

(** X5.  In [lowres_system_clock.hh], [lowres_system_clock::now()] follows
    the steady counter in order: of two worlds, the one with the later
    [lowres_clock] has the later (or equal) system time, whatever [_base] and
    [_ref] (as long as nothing leaves the 64-bit range).  This wall clock
    never goes back on its own. *)
Theorem lowres_system_clock_follows_steady_order `{Platform}
    (k : positive) (_base : duration (base_period system_clock))
    (_ref : milliseconds) (w1 w2 : world) :
  ratio_divide (base_period system_clock) milli = mk_ratio 1 k ->
  steady_derived_fits k _base _ref w1 ->
  steady_derived_fits k _base _ref w2 ->
  _steady_count w1 <= _steady_count w2 ->
  count (time_since_epoch
           (value (SteadyDerived.lowres_system_clock.now _base _ref w1)))
  <= count (time_since_epoch
              (value (SteadyDerived.lowres_system_clock.now _base _ref w2))).
Proof.
  intros Hk (A1 & B1 & C1) (A2 & B2 & C2) Hle.
  rewrite !(steady_derived_now_count k Hk) by assumption.
  apply Z.quot_le_mono; [lia | nia].
Qed.

Lemma lowres_system_clock_follows_steady_order_witness :
  count (time_since_epoch
           (value (@SteadyDerived.lowres_system_clock.now libstdcxx
                     (mk_duration nano (-1500000)) (mk_duration milli 60)
                     held_wall_clock_world)))
  <= count (time_since_epoch
              (value (@SteadyDerived.lowres_system_clock.now libstdcxx
                        (mk_duration nano (-1500000)) (mk_duration milli 60)
                        (set_counter steady_clock 70 held_wall_clock_world)))).
Proof.
  apply (@lowres_system_clock_follows_steady_order libstdcxx 1000000
           (mk_duration nano (-1500000)) (mk_duration milli 60)
           held_wall_clock_world
           (set_counter steady_clock 70 held_wall_clock_world)).
  - reflexivity.
  - unfold steady_derived_fits, Int64.in_range, Int64.min_signed, Int64.max_signed;
      simpl; lia.
  - unfold steady_derived_fits, Int64.in_range, Int64.min_signed, Int64.max_signed;
      simpl; lia.
  - simpl. lia.
Defined.

(** ** More on the calendar conversions *)

(** X6.  [to_time_t] rounds towards the epoch, not down: from the epoch on it
    is the whole second the time point lies in; before the epoch it is one
    second later than that, unless the time point is a whole second. *)
Theorem to_time_t_rounds_towards_epoch (t : lowres_system_time_point) :
  let c := count (time_since_epoch t) in
  (0 <= c -> to_time_t t = c / 1000)
  /\ (c < 0 -> c mod 1000 <> 0 -> to_time_t t = c / 1000 + 1)
  /\ (c mod 1000 = 0 -> to_time_t t = c / 1000).
Proof.
  cbv zeta. rewrite ChronoFacts.to_time_t_count.
  set (c := count (time_since_epoch t)).
  pose proof (Z.quot_rem' c 1000) as Eq.
  pose proof (Z.div_mod c 1000 ltac:(lia)) as Ed.
  pose proof (Z.mod_pos_bound c 1000 ltac:(lia)) as Bm.
  destruct (Int64Facts.rem_between c 1000 ltac:(lia)) as [Rp Rn].
  split; [| split].
  - intros Hc. specialize (Rp Hc). lia.
  - intros Hc Hm. specialize (Rn ltac:(lia)). lia.
  - intros Hm. destruct (Z_le_gt_dec 0 c) as [Hc | Hc].
    + specialize (Rp Hc). lia.
    + specialize (Rn ltac:(lia)). lia.
Qed.

(** X7.  Truncating to the second is idempotent: going through [to_time_t]
    and [from_time_t] a second time changes nothing. *)
Theorem from_time_t_to_time_t_idempotent (t : lowres_system_time_point) :
  Int64.in_range (count (time_since_epoch t)) ->
  from_time_t (to_time_t (from_time_t (to_time_t t)))
  = from_time_t (to_time_t t).
Proof.
  intros Hr. f_equal.
  rewrite (ChronoFacts.to_time_t_count (from_time_t _)).
  rewrite ChronoFacts.from_time_t_count.
  rewrite Int64Facts.wrap_small.
  - apply Z.quot_mul. lia.
  - rewrite ChronoFacts.to_time_t_count.
    apply Int64Facts.truncation_in_range; [lia | exact Hr].
Qed.

Lemma from_time_t_to_time_t_idempotent_witness :
  let t := mk_time_point LowresSystemClock milli (mk_duration milli (-2500)) in
  from_time_t (to_time_t (from_time_t (to_time_t t))) = from_time_t (to_time_t t).
Proof.
  apply (from_time_t_to_time_t_idempotent
           (mk_time_point LowresSystemClock milli (mk_duration milli (-2500)))).
  unfold Int64.in_range, Int64.min_signed, Int64.max_signed. simpl. lia.
Defined.

(** X8.  The calendar conversions keep the order of time: [to_time_t] never
    puts a later time point in an earlier second, and [from_time_t] sends a
    later second to a later time point (as long as the millisecond counts fit
    the 64-bit [rep]). *)
Theorem calendar_conversions_keep_order
    (t1 t2 : lowres_system_time_point) (s1 s2 : Z) :
  count (time_since_epoch t1) <= count (time_since_epoch t2) ->
  s1 < s2 ->
  Int64.in_range (s1 * 1000) -> Int64.in_range (s2 * 1000) ->
  to_time_t t1 <= to_time_t t2
  /\ count (time_since_epoch (from_time_t s1))
     < count (time_since_epoch (from_time_t s2)).
Proof.
  intros Ht Hs H1 H2. split.
  - rewrite !ChronoFacts.to_time_t_count. apply Z.quot_le_mono; lia.
  - rewrite !ChronoFacts.from_time_t_count, !Int64Facts.wrap_small by assumption.
    lia.
Qed.

Lemma calendar_conversions_keep_order_witness :
  to_time_t (mk_time_point LowresSystemClock milli (mk_duration milli (-1)))
  <= to_time_t (mk_time_point LowresSystemClock milli (mk_duration milli 999))
  /\ count (time_since_epoch (from_time_t (-1)))
     < count (time_since_epoch (from_time_t 0)).
Proof.
  apply (calendar_conversions_keep_order
           (mk_time_point LowresSystemClock milli (mk_duration milli (-1)))
           (mk_time_point LowresSystemClock milli (mk_duration milli 999))
           (-1) 0);
    unfold Int64.in_range, Int64.min_signed, Int64.max_signed; simpl; lia.
Defined.

(** ** How far the cache is from the reading it holds *)

(** X9.  Right after a refresh, with [k] ticks of precise clock [c] to the
    millisecond and a reading not before the clock's epoch, [now()] is the
    reading with its sub-millisecond part dropped: at most the reading, and
    less than one millisecond below it.  This holds in both revisions of
    [lowres_clock.hh] and in [lowres_clocks.hh]. *)
Theorem refreshed_now_within_a_millisecond `{Platform}
    (c : base_clock) (k : positive) (w : world) :
  ratio_divide (base_period c) milli = mk_ratio 1 k ->
  0 <= precise w c (reads c w) ->
  let r := precise w c (reads c w) in
  let close (now : Z) := now * Z.pos k <= r < (now + 1) * Z.pos k in
  close (count (value (perform_now ReadTimeConversion.lowres_clock.now
                         ReadTimeConversion.lowres_system_clock.now c
                         (final (ReadTimeConversion.lowres_clock_impl.update w)))))
  /\ close (count (value (perform_now StoreTimeConversion.lowres_clock.now
                            StoreTimeConversion.lowres_system_clock.now c
                            (final (StoreTimeConversion.lowres_clock_impl.update w)))))
  /\ close (count (value (perform_now Generic.lowres_clock.now
                            Generic.lowres_system_clock.now c
                            (final (Generic.clock_impl.update c w))))).
Proof.
  intros Hk Hr. cbv zeta.
  pose proof (RatioFacts.in_milliseconds_lag c k Hk _ Hr) as Hlag.
  split; [| split]; destruct c; exact Hlag.
Qed.

Lemma refreshed_now_within_a_millisecond_witness :
  let w := example_world in
  let now :=
    count (value (perform_now (@ReadTimeConversion.lowres_clock.now libstdcxx)
                    (@ReadTimeConversion.lowres_system_clock.now libstdcxx)
                    steady_clock
                    (final (@ReadTimeConversion.lowres_clock_impl.update
                              libstdcxx w)))) in
  now * 1000000 <= 3000000 < (now + 1) * 1000000.
Proof.
  apply (proj1 (@refreshed_now_within_a_millisecond libstdcxx steady_clock
                  1000000 example_world eq_refl
                  ltac:(unfold example_world, precise; simpl; lia))).
Defined.

(** * Properties of the logging options *)

Module LogCliFacts.
Import Ascii String log_cli LogCliNotions.

(** ** Strings *)

Lemma find_none c s : find c s = None <-> ~ In c s.
Proof.
  induction s as [| x rest IH]; simpl.
  - split; auto.
  - destruct (Ascii.eqb_spec x c) as [-> | Hne].
    + split; [discriminate | intros Hn; exfalso; apply Hn; auto].
    + destruct (find c rest) as [i |].
      * split; [discriminate |]. intros Hn. exfalso. apply Hn. right.
        destruct (in_dec ascii_dec c rest) as [Hin | Hnin]; [exact Hin |].
        apply IH in Hnin. discriminate.
      * split; [| reflexivity]. intros _ [Heq | Hin]; [congruence |].
        apply (proj1 IH eq_refl Hin).
Qed.

Lemma find_some_in c s i : find c s = Some i -> In c s.
Proof.
  intros Hf. destruct (in_dec ascii_dec c s) as [Hin | Hnin]; [exact Hin |].
  apply find_none in Hnin. congruence.
Qed.

(** The first ['c'] of [k ++ c :: v] is right after [k] when [k] has none. *)
Lemma find_app c k v : ~ In c k -> find c (k ++ c :: v) = Some (List.length k).
Proof.
  induction k as [| x k IH]; simpl; intros Hn.
  - rewrite Ascii.eqb_refl. reflexivity.
  - destruct (Ascii.eqb_spec x c) as [-> | Hne]; [exfalso; apply Hn; auto |].
    rewrite IH by (intros Hin; apply Hn; auto). reflexivity.
Qed.

Lemma substr_prefix i s : substr 0 i s = firstn i s.
Proof. reflexivity. Qed.

Lemma substr_suffix pos s : substr pos (List.length s) s = skipn pos s.
Proof.
  unfold substr. apply firstn_all2. rewrite length_skipn. lia.
Qed.

Lemma find_firstn_skipn c s : forall i,
  find c s = Some i ->
  s = firstn i s ++ c :: skipn (S i) s /\ ~ In c (firstn i s).
Proof.
  induction s as [| x rest IH]; intros i Hf; [discriminate |].
  cbn [find] in Hf. destruct (Ascii.eqb_spec x c) as [-> | Hne].
  - injection Hf as <-. split; [reflexivity | intros []].
  - destruct (find c rest) as [j |] eqn:Hj; [| discriminate].
    injection Hf as <-. destruct (IH j eq_refl) as [E Hn].
    cbn [firstn skipn app]. split.
    + f_equal. exact E.
    + intros [Heq | Hin]; [congruence | exact (Hn Hin)].
Qed.

(** A token is the name, the ['='], and the level. *)
Lemma find_split c s i :
  find c s = Some i ->
  s = substr 0 i s ++ c :: substr (i + 1) (List.length s) s
  /\ ~ In c (substr 0 i s).
Proof.
  intros Hf. rewrite substr_prefix, substr_suffix, Nat.add_1_r.
  apply find_firstn_skipn. exact Hf.
Qed.

Lemma token_key_value p k v :
  token_key p = Some k -> token_value p = Some v ->
  p = entry_text (k, v) /\ ~ In "="%char k.
Proof.
  unfold token_key, token_value, entry_text.
  destruct (find "="%char p) as [i |] eqn:Hf; [| discriminate].
  intros [= <-] [= <-]. simpl. apply find_split. exact Hf.
Qed.

Lemma token_of_entry k v :
  ~ In "="%char k ->
  token_key (entry_text (k, v)) = Some k
  /\ token_value (entry_text (k, v)) = Some v.
Proof.
  intros Hn. unfold token_key, token_value, entry_text. cbn [fst snd].
  rewrite (find_app _ k v Hn), substr_prefix, substr_suffix, Nat.add_1_r.
  split; f_equal.
  - rewrite firstn_app, Nat.sub_diag, firstn_all. cbn [firstn]. apply app_nil_r.
  - rewrite skipn_app, skipn_all2 by lia.
    replace (S (List.length k) - List.length k)%nat with 1%nat by lia.
    reflexivity.
Qed.

Lemma has_equals_key p : has_equals p <-> token_key p <> None.
Proof.
  unfold has_equals, token_key.
  destruct (find "="%char p) as [i |] eqn:Hf.
  - split; [discriminate | intros _; eapply find_some_in; eauto].
  - split; [| congruence]. intros Hin. apply find_none in Hf. contradiction.
Qed.

(** ** The map *)

Lemma lookup_assign_same k v lv : lookup k (assign k v lv) = Some v.
Proof.
  induction lv as [| [k' v'] rest IH]; simpl.
  - destruct (sstring_eq_dec k k); congruence.
  - destruct (sstring_eq_dec k k') as [-> | Hne]; simpl.
    + destruct (sstring_eq_dec k' k'); congruence.
    + destruct (sstring_eq_dec k k'); [contradiction | exact IH].
Qed.

Lemma lookup_assign_other k k' v lv :
  k <> k' -> lookup k (assign k' v lv) = lookup k lv.
Proof.
  intros Hne. induction lv as [| [k'' v''] rest IH]; simpl.
  - destruct (sstring_eq_dec k k'); [contradiction | reflexivity].
  - destruct (sstring_eq_dec k' k'') as [-> | Hne']; simpl.
    + destruct (sstring_eq_dec k k''); [contradiction | reflexivity].
    + destruct (sstring_eq_dec k k''); [reflexivity | exact IH].
Qed.

Lemma assign_fresh k v lv :
  ~ In k (map fst lv) -> assign k v lv = lv ++ [(k, v)].
Proof.
  induction lv as [| [k' v'] rest IH]; simpl; intros Hn; [reflexivity |].
  destruct (sstring_eq_dec k k') as [-> | Hne]; [exfalso; apply Hn; auto |].
  rewrite IH by (intros Hin; apply Hn; auto). reflexivity.
Qed.

Lemma assign_keeps_one_entry_per_name k v lv :
  NoDup (map fst lv) -> NoDup (map fst (assign k v lv)).
Proof.
  induction lv as [| [k' v'] rest IH]; simpl; intros Hnd.
  - constructor; [auto | constructor].
  - inversion Hnd as [| ? ? Hnotin Hrest]; subst.
    destruct (sstring_eq_dec k k') as [-> | Hne]; simpl.
    + constructor; assumption.
    + constructor; [| apply IH; exact Hrest].
      intros Hin. apply Hnotin. clear - Hin Hne.
      induction rest as [| [k'' v''] rest IH]; simpl in *.
      * destruct Hin as [Heq | []]. congruence.
      * destruct (sstring_eq_dec k k'') as [-> | Hne']; simpl in *.
        -- destruct Hin as [Heq | Hin]; [congruence | auto].
        -- destruct Hin as [Heq | Hin]; [auto | right; apply IH; exact Hin].
Qed.

(** ** The loop of [parse_level_assignments] *)

Lemma loop_step p rest lv :
  parse_level_assignments_loop (p :: rest) lv
  = match token_key p with
    | Some _ => parse_level_assignments_loop rest (assign_token lv p)
    | None => (lv, Some (invalid_option_value p))
    end.
Proof.
  unfold assign_token, token_key, token_value. simpl.
  destruct (find "="%char p); reflexivity.
Qed.

(** The loop assigns token after token until one has no ['=']. *)
Lemma loop_outcome tokens : forall lv,
  (Forall has_equals tokens
   /\ parse_level_assignments_loop tokens lv
      = (fold_left assign_token tokens lv, None))
  \/ (exists before p after,
        tokens = before ++ p :: after
        /\ Forall has_equals before
        /\ ~ has_equals p
        /\ parse_level_assignments_loop tokens lv
           = (fold_left assign_token before lv, Some (invalid_option_value p))).
Proof.
  induction tokens as [| p rest IH]; intros lv.
  - left. split; [constructor | reflexivity].
  - rewrite loop_step. destruct (token_key p) as [k |] eqn:Hk.
    + assert (Hp : has_equals p) by (apply has_equals_key; congruence).
      destruct (IH (assign_token lv p)) as [[Hall E] | (b & q & a & -> & Hb & Hq & E)].
      * left. split; [constructor; assumption | exact E].
      * right. exists (p :: b), q, a. repeat split; auto.
    + right. exists [], p, rest. repeat split; auto.
      rewrite has_equals_key. congruence.
Qed.

Lemma loop_app tokens1 tokens2 lv :
  parse_level_assignments_loop (tokens1 ++ tokens2) lv
  = match parse_level_assignments_loop tokens1 lv with
    | (lv', None) => parse_level_assignments_loop tokens2 lv'
    | failed => failed
    end.
Proof.
  revert lv. induction tokens1 as [| p rest IH]; intros lv; [reflexivity |].
  rewrite <- app_comm_cons, !loop_step.
  destruct (token_key p); [apply IH | reflexivity].
Qed.

Lemma validate_loop_tokens input : forall lv,
  validate_loop input lv
  = parse_level_assignments_loop (all_tokens input) lv.
Proof.
  induction input as [| s rest IH]; intros lv; [reflexivity |].
  simpl. unfold parse_level_assignments. rewrite loop_app.
  destruct (parse_level_assignments_loop (sregex_token_iterator s) lv)
    as [lv' [e |]]; [reflexivity | apply IH].
Qed.

(** ** Tokens *)

Lemma fields_not_nil s : fields s <> [].
Proof.
  destruct s as [| c rest]; simpl; [discriminate |].
  destruct (Ascii.eqb c ":"%char); [discriminate |].
  destruct (fields rest); discriminate.
Qed.

Lemma fields_cons_other c rest :
  c <> ":"%char ->
  exists f fs, fields rest = f :: fs /\ fields (c :: rest) = (c :: f) :: fs.
Proof.
  intros Hne. simpl. destruct (Ascii.eqb_spec c ":"%char); [contradiction |].
  destruct (fields rest) as [| f fs] eqn:E; [exfalso; eapply fields_not_nil; eauto |].
  exists f, fs. auto.
Qed.

Lemma fields_cons_colon rest : fields (":"%char :: rest) = [] :: fields rest.
Proof. reflexivity. Qed.

(** No field holds a colon. *)
Lemma fields_have_no_colon s : Forall (fun f => ~ In ":"%char f) (fields s).
Proof.
  induction s as [| c rest IH].
  - constructor; [intros [] | constructor].
  - destruct (ascii_dec c ":"%char) as [-> | Hne].
    + rewrite fields_cons_colon. constructor; [intros [] | exact IH].
    + destruct (fields_cons_other c rest Hne) as (f & fs & E & ->).
      rewrite E in IH. inversion IH as [| ? ? Hf Hfs]; subst.
      constructor; [| exact Hfs].
      intros [Heq | Hin]; [congruence | exact (Hf Hin)].
Qed.

(** A text without colons before some fields joins the first of them. *)
Lemma fields_app_other a b f fs :
  ~ In ":"%char a -> fields b = f :: fs ->
  fields (a ++ b) = (a ++ f) :: fs.
Proof.
  intros Ha Hb. induction a as [| c a IH]; [exact Hb |].
  assert (Hc : c <> ":"%char) by (intros ->; apply Ha; left; reflexivity).
  destruct (fields_cons_other c (a ++ b) Hc) as (f' & fs' & E & E').
  rewrite <- app_comm_cons, E'.
  rewrite IH in E by (intros Hin; apply Ha; right; exact Hin).
  injection E as <- <-. reflexivity.
Qed.

Lemma fields_app_colon a b :
  fields (a ++ ":"%char :: b) = fields a ++ fields b.
Proof.
  induction a as [| c a IH]; [reflexivity |].
  destruct (ascii_dec c ":"%char) as [-> | Hne].
  - rewrite <- app_comm_cons, !fields_cons_colon, IH. reflexivity.
  - destruct (fields_cons_other c a Hne) as (f & fs & E & ->).
    destruct (fields_cons_other c (a ++ ":"%char :: b) Hne) as (f' & fs' & E' & E'').
    rewrite <- app_comm_cons, E''. rewrite IH, E in E'.
    injection E' as <- <-. reflexivity.
Qed.

(** The last field is empty exactly when the text is empty or ends in a
    colon. *)
Lemma last_field_not_empty s d :
  s <> [] -> last s d <> ":"%char -> last (fields s) [] <> [].
Proof.
  induction s as [| c rest IH]; intros Hne Hlast; [congruence |].
  destruct rest as [| c' rest'].
  - simpl in Hlast. simpl.
    destruct (Ascii.eqb_spec c ":"%char); [contradiction | discriminate].
  - assert (Hlast' : last (c' :: rest') d <> ":"%char) by exact Hlast.
    specialize (IH ltac:(discriminate) Hlast').
    destruct (ascii_dec c ":"%char) as [-> | Hc].
    + rewrite fields_cons_colon.
      destruct (fields (c' :: rest')) as [| f fs] eqn:E;
        [exfalso; eapply fields_not_nil; eauto | exact IH].
    + destruct (fields_cons_other c (c' :: rest') Hc) as (f & fs & E & ->).
      rewrite E in IH. destruct fs as [| f' fs']; [discriminate | exact IH].
Qed.

Lemma tokens_when_last_field_not_empty s :
  last (fields s) [] <> [] -> sregex_token_iterator s = fields s.
Proof.
  intros Hl. unfold sregex_token_iterator.
  destruct (fields s) as [| f [| f' fs]]; try reflexivity.
  destruct (last (f :: f' :: fs) []); [congruence | reflexivity].
Qed.

Lemma first_token_is_first_field s f g fs :
  fields s = f :: g :: fs ->
  exists rest, sregex_token_iterator s = f :: rest.
Proof.
  intros E. unfold sregex_token_iterator. rewrite E.
  destruct (last _ _); [| eexists; reflexivity].
  cbn [removelast]. destruct fs; eexists; reflexivity.
Qed.

Lemma tokens_not_nil s : sregex_token_iterator s <> [].
Proof.
  unfold sregex_token_iterator.
  destruct (fields s) as [| f [| f' fs]] eqn:E;
    [exfalso; eapply fields_not_nil; eauto | discriminate |].
  destruct (last (f :: f' :: fs) []); [| discriminate].
  cbn [removelast]. destruct fs; discriminate.
Qed.

Lemma tokens_are_fields s :
  exists dropped, fields s = sregex_token_iterator s ++ dropped.
Proof.
  unfold sregex_token_iterator.
  destruct (fields s) as [| f [| f' fs]]; try (exists []; reflexivity).
  destruct (last (f :: f' :: fs) []) eqn:El;
    [| exists []; symmetry; apply app_nil_r].
  exists [last (f :: f' :: fs) []].
  apply app_removelast_last. discriminate.
Qed.

Lemma tokens_have_no_colon s :
  Forall (fun p => ~ In ":"%char p) (sregex_token_iterator s).
Proof.
  destruct (tokens_are_fields s) as [dropped E].
  pose proof (fields_have_no_colon s) as Hf. rewrite E in Hf.
  apply Forall_app in Hf. apply Hf.
Qed.

(** ** What is assigned *)

Lemma assign_token_lookup_same lv p k v :
  token_key p = Some k -> token_value p = Some v ->
  lookup k (assign_token lv p) = Some v.
Proof.
  intros Hk Hv. unfold assign_token. rewrite Hk, Hv. apply lookup_assign_same.
Qed.

Lemma assign_token_lookup_other lv p k :
  token_key p <> Some k -> lookup k (assign_token lv p) = lookup k lv.
Proof.
  intros Hk. unfold assign_token.
  destruct (token_key p) as [k' |]; [| reflexivity].
  destruct (token_value p); [| reflexivity].
  apply lookup_assign_other. congruence.
Qed.

Lemma fold_assign_lookup_other tokens k : forall lv,
  (forall q, In q tokens -> token_key q <> Some k) ->
  lookup k (fold_left assign_token tokens lv) = lookup k lv.
Proof.
  induction tokens as [| p rest IH]; intros lv Hq; [reflexivity |].
  simpl. rewrite IH by (intros q Hin; apply Hq; right; exact Hin).
  apply assign_token_lookup_other. apply Hq. left. reflexivity.
Qed.

Lemma validate_as_loop out input :
  validate out input
  = (Some (fst (parse_level_assignments_loop (all_tokens input)
                  (match out with Some lv => lv | None => [] end))),
     snd (parse_level_assignments_loop (all_tokens input)
            (match out with Some lv => lv | None => [] end))).
Proof. unfold validate. rewrite validate_loop_tokens. reflexivity. Qed.

Example test_logger_log_level :
  validate None [text "log1=debug:log3=debug"; text "log2=warn:log1=error"]
  = (Some [(text "log1", text "error"); (text "log3", text "debug");
           (text "log2", text "warn")], None)
  /\ validate None [text "log1:"]
     = (Some [], Some (invalid_option_value (text "log1"))).
Proof. split; reflexivity. Qed.

(** X10.  [parse_level_assignments] throws exactly when a token has no
    ['=']: it then throws [invalid_option_value] with the first such token,
    and the assignments of the tokens before it stay in the map.  Otherwise
    every token is assigned, in order. *)
Theorem parse_level_assignments_outcome (v : sstring) (lv : logger_levels) :
  (Forall has_equals (sregex_token_iterator v)
   /\ parse_level_assignments v lv
      = (fold_left assign_token (sregex_token_iterator v) lv, None))
  \/ (exists before p after,
        sregex_token_iterator v = before ++ p :: after
        /\ Forall has_equals before
        /\ ~ has_equals p
        /\ parse_level_assignments v lv
           = (fold_left assign_token before lv,
              Some (invalid_option_value p))).
Proof.
  unfold parse_level_assignments.
  generalize (sregex_token_iterator v) as tokens. intros tokens. revert lv.
  induction tokens as [| p rest IH]; intros lv.
  - left. split; [constructor | reflexivity].
  - rewrite loop_step. destruct (token_key p) as [k |] eqn:Hk.
    + assert (Hp : has_equals p) by (apply has_equals_key; congruence).
      destruct (IH (assign_token lv p))
        as [[Hall E] | (b & q & a & -> & Hb & Hq & E)].
      * left. split; [constructor; assumption | exact E].
      * right. exists (p :: b), q, a. repeat split; auto.
    + right. exists [], p, rest. repeat split; auto.
      rewrite has_equals_key. congruence.
Qed.

(** X11.  The last association takes precedence: when the options are
    accepted, a logger has the level of the last token that names it, among
    all tokens of all occurrences of the option. *)
Theorem last_association_takes_precedence
    (out : option logger_levels) (input : list sstring)
    (before : list sstring) (p : sstring) (after : list sstring)
    (k v : sstring) :
  snd (validate out input) = None ->
  all_tokens input = before ++ p :: after ->
  token_key p = Some k ->
  token_value p = Some v ->
  (forall q, In q after -> token_key q <> Some k) ->
  exists lv, fst (validate out input) = Some lv /\ lookup k lv = Some v.
Proof.
  intros Hok Htok Hk Hv Hafter. rewrite validate_as_loop in *. simpl in *.
  eexists. split; [reflexivity |].
  set (lv0 := match out with Some lv => lv | None => [] end) in *.
  destruct (loop_outcome (all_tokens input) lv0)
    as [[_ E] | (b & q & a & _ & _ & _ & E)]; rewrite E in *; [| discriminate].
  simpl. rewrite Htok, fold_left_app. simpl.
  rewrite fold_assign_lookup_other by exact Hafter.
  apply assign_token_lookup_same; assumption.
Qed.

Lemma last_association_takes_precedence_witness :
  exists lv,
    fst (validate None [text "log1=debug:log3=debug"; text "log2=warn:log1=error"])
    = Some lv
    /\ lookup (text "log1") lv = Some (text "error").
Proof.
  apply (last_association_takes_precedence None
           [text "log1=debug:log3=debug"; text "log2=warn:log1=error"]
           [text "log1=debug"; text "log3=debug"; text "log2=warn"]
           (text "log1=error") []).
  - reflexivity.
  - reflexivity.
  - reflexivity.
  - reflexivity.
  - intros q [].
Defined.

(** X12.  A logger that no token names keeps the level it had, and has none
    if it had none, whether the options are accepted or an exception is
    thrown on the way. *)
Theorem unnamed_logger_keeps_its_level
    (out : option logger_levels) (input : list sstring) (k : sstring) :
  (forall q, In q (all_tokens input) -> token_key q <> Some k) ->
  exists lv,
    fst (validate out input) = Some lv
    /\ lookup k lv
       = match out with
         | Some lv0 => lookup k lv0
         | None => None
         end.
Proof.
  intros Hq. rewrite validate_as_loop. simpl. eexists. split; [reflexivity |].
  set (lv0 := match out with Some lv => lv | None => [] end).
  assert (E0 : lookup k lv0 = match out with
                               | Some lv1 => lookup k lv1
                               | None => None
                               end) by (destruct out; reflexivity).
  rewrite <- E0.
  destruct (loop_outcome (all_tokens input) lv0)
    as [[_ E] | (b & q & a & Etok & _ & _ & E)]; rewrite E; simpl.
  - apply fold_assign_lookup_other. exact Hq.
  - apply fold_assign_lookup_other. intros q' Hin. apply Hq.
    rewrite Etok. apply in_or_app. left. exact Hin.
Qed.

Lemma unnamed_logger_keeps_its_level_witness :
  exists lv,
    fst (validate (Some [(text "log3", text "debug")])
           [text "log2=warn:log1=error"]) = Some lv
    /\ lookup (text "log3") lv = Some (text "debug").
Proof.
  apply (unnamed_logger_keeps_its_level
           (Some [(text "log3", text "debug")])
           [text "log2=warn:log1=error"] (text "log3")).
  intros q [<- | [<- | []]]; vm_compute; discriminate.
Defined.

(** X13.  Empty fields are rejected, except that one trailing colon is
    ignored: the empty text and any text that starts with a colon throw
    [invalid_option_value] with the empty token and assign nothing, while a
    colon added to a text that is not empty and does not end in one changes
    nothing. *)
Theorem empty_fields_and_trailing_colon (lv : logger_levels) :
  parse_level_assignments [] lv = (lv, Some (invalid_option_value []))
  /\ (forall s,
        parse_level_assignments (":"%char :: s) lv
        = (lv, Some (invalid_option_value [])))
  /\ (forall s d,
        s <> [] -> last s d <> ":"%char ->
        parse_level_assignments (s ++ [":"%char]) lv
        = parse_level_assignments s lv).
Proof.
  split; [reflexivity | split].
  - intros s. unfold parse_level_assignments.
    destruct (fields s) as [| f fs] eqn:E;
      [exfalso; eapply fields_not_nil; eauto |].
    destruct (first_token_is_first_field (":"%char :: s) [] f fs) as [rest ->];
      [rewrite fields_cons_colon, E; reflexivity | reflexivity].
  - intros s d Hne Hlast. unfold parse_level_assignments. f_equal.
    pose proof (last_field_not_empty s d Hne Hlast) as Hl.
    rewrite (tokens_when_last_field_not_empty s Hl).
    unfold sregex_token_iterator. rewrite fields_app_colon.
    change (fields []) with [@nil ascii].
    destruct (fields s) as [| f fs] eqn:E;
      [exfalso; eapply fields_not_nil; eauto |].
    destruct ((f :: fs) ++ [[]]) as [| g [| g' gs]] eqn:Eg.
    + destruct fs; discriminate.
    + destruct fs; discriminate.
    + rewrite <- Eg, last_last, removelast_last. reflexivity.
Qed.

(** X14.  Several occurrences of the option are merged in order: validating
    two lists of occurrences one after the other, carrying the levels over,
    is validating them as one list; after an exception nothing more is
    read. *)
Theorem validate_merges_occurrences
    (out : option logger_levels) (input1 input2 : list sstring) :
  validate out (input1 ++ input2)
  = match validate out input1 with
    | (out', None) => validate out' input2
    | failed => failed
    end.
Proof.
  rewrite !validate_as_loop. unfold all_tokens.
  rewrite flat_map_app, loop_app.
  destruct (parse_level_assignments_loop (flat_map sregex_token_iterator input1)
              (match out with Some lv => lv | None => [] end))
    as [lv' [e |]]; reflexivity.
Qed.

(** ** Writing the levels and reading them back *)

Lemma entry_text_has_no_colon e : separable e -> ~ In ":"%char (entry_text e).
Proof.
  intros (_ & Hk & Hv) Hin. unfold entry_text in Hin.
  apply in_app_or in Hin. destruct Hin as [Hin | [Heq | Hin]]; auto.
  discriminate Heq.
Qed.

Lemma wrap_next n :
  0 <= n -> n + 1 <= Int32.max_signed -> Int32.wrap (n + 1) = n + 1.
Proof.
  unfold Int32.wrap, Int32.max_signed, Int32.min_signed. intros H0 H1.
  rewrite Z.mod_small; lia.
Qed.

Lemma output_loop_cons n e rest :
  output_loop n (e :: rest)
  = (if 0 <? n then [":"%char] else [])
    ++ entry_text e ++ output_loop (Int32.wrap (n + 1)) rest.
Proof.
  destruct e as [k v]. cbn [output_loop]. unfold entry_text. cbn [fst snd].
  f_equal. rewrite <- app_assoc. reflexivity.
Qed.

(** After the first entry, every entry is written behind a colon. *)
Lemma fields_of_output_rest lv : forall n,
  1 <= n -> n + Z.of_nat (List.length lv) <= Int32.max_signed ->
  Forall separable lv ->
  fields (output_loop n lv) = [] :: map entry_text lv.
Proof.
  induction lv as [| e rest IH]; intros n Hn Hlen Hsep; [reflexivity |].
  inversion Hsep as [| ? ? He Hrest]; subst.
  rewrite output_loop_cons. destruct (Z.ltb_spec 0 n) as [_ | Hbad]; [| lia].
  cbn [app]. rewrite fields_cons_colon. f_equal.
  cbn [List.length] in Hlen. rewrite Nat2Z.inj_succ in Hlen.
  rewrite wrap_next by lia.
  rewrite (fields_app_other _ _ [] (map entry_text rest)).
  - rewrite app_nil_r. reflexivity.
  - apply entry_text_has_no_colon. exact He.
  - apply IH; [lia | lia | exact Hrest].
Qed.

Lemma fields_of_output lv :
  lv <> [] ->
  Z.of_nat (List.length lv) <= Int32.max_signed ->
  Forall separable lv ->
  fields (output [] lv) = map entry_text lv.
Proof.
  intros Hne Hlen Hsep. destruct lv as [| e rest]; [congruence |].
  inversion Hsep as [| ? ? He Hrest]; subst.
  unfold output. cbn [app]. rewrite output_loop_cons.
  change (0 <? 0) with false. cbn [app].
  cbn [List.length] in Hlen. rewrite Nat2Z.inj_succ in Hlen.
  rewrite wrap_next by lia.
  rewrite (fields_app_other _ _ [] (map entry_text rest)).
  - rewrite app_nil_r. reflexivity.
  - apply entry_text_has_no_colon. exact He.
  - apply fields_of_output_rest; [lia | lia | exact Hrest].
Qed.

Lemma entry_text_not_empty e : entry_text e <> [].
Proof. unfold entry_text. destruct (fst e); discriminate. Qed.

Lemma tokens_of_output lv :
  lv <> [] ->
  Z.of_nat (List.length lv) <= Int32.max_signed ->
  Forall separable lv ->
  sregex_token_iterator (output [] lv) = map entry_text lv.
Proof.
  intros Hne Hlen Hsep.
  rewrite tokens_when_last_field_not_empty;
    rewrite (fields_of_output lv Hne Hlen Hsep); [reflexivity |].
  destruct (exists_last (l:=lv) Hne) as (lv' & e & ->).
  rewrite map_app. cbn [map]. rewrite last_last.
  apply entry_text_not_empty.
Qed.

(** Reading entries with names that are new and differ from one another
    adds them as they come. *)
Lemma loop_over_entries lv2 : forall lv1,
  NoDup (map fst (lv1 ++ lv2)) ->
  Forall separable lv2 ->
  parse_level_assignments_loop (map entry_text lv2) lv1 = (lv1 ++ lv2, None).
Proof.
  induction lv2 as [| e rest IH]; intros lv1 Hnd Hsep.
  - cbn. rewrite app_nil_r. reflexivity.
  - inversion Hsep as [| ? ? He Hrest]; subst.
    destruct He as (Hk & _).
    assert (Ek : token_key (entry_text e) = Some (fst e))
      by (destruct e; apply token_of_entry; exact Hk).
    assert (Ev : token_value (entry_text e) = Some (snd e))
      by (destruct e; apply token_of_entry; exact Hk).
    cbn [map]. rewrite loop_step, Ek. unfold assign_token. rewrite Ek, Ev.
    rewrite assign_fresh.
    + rewrite IH; [| | exact Hrest].
      * rewrite <- app_assoc. destruct e. reflexivity.
      * rewrite <- app_assoc. destruct e. exact Hnd.
    + rewrite map_app in Hnd. cbn [map] in Hnd.
      apply NoDup_remove_2 in Hnd. intros Hin. apply Hnd.
      apply in_or_app. left. exact Hin.
Qed.

Lemma parse_output_printable lv :
  printable lv ->
  parse_level_assignments (output [] lv) [] = (lv, None).
Proof.
  intros (Hne & Hnd & Hsep & Hlen). unfold parse_level_assignments.
  rewrite (tokens_of_output lv Hne Hlen Hsep).
  apply (loop_over_entries lv []); assumption.
Qed.

(** X15.  Written by [operator<<] and parsed back into an empty map, levels
    come out as they went in, provided there is at least one entry, the names
    hold no ['='] and no [':'] and the levels no [':'].  (The empty map is
    written as the empty text, which does not parse.) *)
Theorem parse_of_output (lv : logger_levels) :
  printable lv ->
  parse_level_assignments (output [] lv) [] = (lv, None).
Proof.
  intros (Hne & Hnd & Hsep & Hlen). unfold parse_level_assignments.
  rewrite (tokens_of_output lv Hne Hlen Hsep).
  apply (loop_over_entries lv []); assumption.
Qed.

Lemma printable_sample :
  printable [(text "log1", text "error"); (text "log2", text "a=b")].
Proof.
  split; [discriminate | split; [| split]].
  - repeat constructor; simpl; intuition discriminate.
  - repeat constructor; simpl; intuition discriminate.
  - vm_compute. discriminate.
Defined.

Lemma parse_of_output_witness :
  parse_level_assignments
    (output [] [(text "log1", text "error"); (text "log2", text "a=b")]) []
  = ([(text "log1", text "error"); (text "log2", text "a=b")], None).
Proof.
  apply (parse_of_output [(text "log1", text "error"); (text "log2", text "a=b")]).
  exact printable_sample.
Defined.

Example output_of_no_levels_does_not_parse :
  output [] [] = []
  /\ parse_level_assignments (output [] []) []
     = ([], Some (invalid_option_value [])).
Proof. split; reflexivity. Qed.

(** ** What is accepted can be written *)

Lemma assign_not_nil k v lv : assign k v lv <> [].
Proof.
  destruct lv as [| [k' v'] rest]; simpl; [discriminate |].
  destruct (sstring_eq_dec k k'); discriminate.
Qed.

Lemma assign_length k v lv :
  (List.length (assign k v lv) <= S (List.length lv))%nat.
Proof.
  induction lv as [| [k' v'] rest IH]; simpl; [lia |].
  destruct (sstring_eq_dec k k'); simpl; lia.
Qed.

Lemma assign_forall (P : sstring * sstring -> Prop) k v lv :
  P (k, v) -> Forall P lv -> Forall P (assign k v lv).
Proof.
  intros Hkv. induction lv as [| [k' v'] rest IH]; intros Hall; simpl.
  - constructor; [exact Hkv | constructor].
  - inversion Hall; subst.
    destruct (sstring_eq_dec k k'); constructor; auto.
Qed.

Lemma token_is_separable p k v :
  ~ In ":"%char p -> token_key p = Some k -> token_value p = Some v ->
  separable (k, v).
Proof.
  intros Hp Hk Hv. destruct (token_key_value p k v Hk Hv) as [E Hn].
  unfold entry_text in E. cbn [fst snd] in E. subst p.
  repeat split; cbn [fst snd]; [exact Hn | |];
    intros Hin; apply Hp; apply in_or_app; [left | right; right]; exact Hin.
Qed.

(** What a sequence of tokens without colons leaves in the map. *)
Lemma fold_assign_invariants tokens : forall lv,
  Forall (fun p => ~ In ":"%char p) tokens ->
  NoDup (map fst lv) -> Forall separable lv ->
  NoDup (map fst (fold_left assign_token tokens lv))
  /\ Forall separable (fold_left assign_token tokens lv)
  /\ (List.length (fold_left assign_token tokens lv)
      <= List.length lv + List.length tokens)%nat.
Proof.
  induction tokens as [| p rest IH]; intros lv Hcol Hnd Hsep.
  - simpl. repeat split; auto. lia.
  - inversion Hcol as [| ? ? Hp Hrest]; subst. cbn [fold_left].
    assert (Hstep : NoDup (map fst (assign_token lv p))
                    /\ Forall separable (assign_token lv p)
                    /\ (List.length (assign_token lv p) <= S (List.length lv))%nat).
    { unfold assign_token.
      destruct (token_key p) as [k |] eqn:Hk; [| repeat split; auto].
      destruct (token_value p) as [v |] eqn:Hv; [| repeat split; auto].
      repeat split.
      - apply assign_keeps_one_entry_per_name. exact Hnd.
      - apply assign_forall; [| exact Hsep].
        eapply token_is_separable; eauto.
      - apply assign_length. }
    destruct Hstep as (S1 & S2 & S3).
    destruct (IH _ Hrest S1 S2) as (I1 & I2 & I3).
    repeat split; auto. cbn [List.length]. lia.
Qed.

Lemma fold_assign_not_nil tokens : forall lv,
  lv <> [] -> fold_left assign_token tokens lv <> [].
Proof.
  induction tokens as [| p rest IH]; intros lv Hne; [exact Hne |].
  cbn [fold_left]. apply IH. unfold assign_token.
  destruct (token_key p); [| exact Hne].
  destruct (token_value p); [apply assign_not_nil | exact Hne].
Qed.

Lemma fields_length s : (List.length (fields s) <= S (List.length s))%nat.
Proof.
  induction s as [| c rest IH]; [simpl; lia |].
  destruct (ascii_dec c ":"%char) as [-> | Hne].
  - rewrite fields_cons_colon. simpl in *. lia.
  - destruct (fields_cons_other c rest Hne) as (f & fs & E & ->).
    rewrite E in IH. simpl in *. lia.
Qed.

Lemma tokens_length s :
  (List.length (sregex_token_iterator s) <= S (List.length s))%nat.
Proof.
  destruct (tokens_are_fields s) as [dropped E].
  pose proof (fields_length s) as Hl. rewrite E, length_app in Hl. lia.
Qed.

(** X16.  Whatever [parse_level_assignments] accepts into an empty map can
    be written by [operator<<] and parsed back to the same map (for a text
    shorter than an [int] can count). *)
Theorem accepted_levels_can_be_written_and_read
    (v : sstring) (lv : logger_levels) :
  Z.of_nat (List.length v) < Int32.max_signed ->
  parse_level_assignments v [] = (lv, None) ->
  parse_level_assignments (output [] lv) [] = (lv, None).
Proof.
  intros Hlen Hparse. apply parse_output_printable.
  unfold parse_level_assignments in Hparse.
  destruct (loop_outcome (sregex_token_iterator v) [])
    as [[Hall E] | (b & p & a & _ & _ & _ & E)];
    rewrite E in Hparse; [| discriminate].
  injection Hparse as <-.
  destruct (fold_assign_invariants (sregex_token_iterator v) []
              (tokens_have_no_colon v) (NoDup_nil _) (Forall_nil _))
    as (I1 & I2 & I3).
  pose proof (tokens_length v) as Ht.
  split; [| split; [exact I1 | split; [exact I2 |]]].
  - destruct (sregex_token_iterator v) as [| p rest] eqn:Etok;
      [exfalso; eapply tokens_not_nil; eauto |].
    inversion Hall as [| ? ? Hp _]; subst.
    cbn [fold_left]. apply fold_assign_not_nil. unfold assign_token.
    apply has_equals_key in Hp.
    destruct (token_key p) as [k |] eqn:Hk; [| congruence].
    assert (Hv : token_value p <> None).
    { unfold token_key, token_value in *.
      destruct (find "="%char p); [discriminate | discriminate]. }
    destruct (token_value p); [apply assign_not_nil | congruence].
  - apply Z.le_trans with (Z.of_nat (S (List.length v))); [| lia].
    apply Nat2Z.inj_le. eapply Nat.le_trans; [exact I3 | exact Ht].
Qed.

Lemma accepted_levels_can_be_written_and_read_witness :
  parse_level_assignments
    (output [] [(text "log2", text "warn"); (text "log1", text "error")]) []
  = ([(text "log2", text "warn"); (text "log1", text "error")], None).
Proof.
  apply (accepted_levels_can_be_written_and_read
           (text "log2=warn:log1=debug:log1=error:")).
  - vm_compute. reflexivity.
  - reflexivity.
Defined.

(** ** Streams *)

Lemma skip_whitespace_none s : no_whitespace s -> skip_whitespace s = s.
Proof.
  intros Hs. destruct s as [| c rest]; [reflexivity |].
  inversion Hs as [| ? ? Hc _]; subst. simpl. rewrite Hc. reflexivity.
Qed.

Lemma skip_whitespace_before ws s :
  Forall (fun c => isspace c = true) ws ->
  skip_whitespace (ws ++ s) = skip_whitespace s.
Proof.
  induction 1 as [| c ws Hc _ IH]; [reflexivity |].
  simpl. rewrite Hc. exact IH.
Qed.

Lemma word_until_whitespace w rest :
  no_whitespace w ->
  match rest with [] => True | c :: _ => isspace c = true end ->
  word (w ++ rest) = (w, rest).
Proof.
  intros Hw Hrest. induction Hw as [| c w Hc _ IH].
  - destruct rest as [| c rest']; [reflexivity |]. simpl. rewrite Hrest. reflexivity.
  - simpl. rewrite Hc, IH. reflexivity.
Qed.

Lemma output_loop_forall (P : ascii -> Prop) lv : forall n,
  P ":"%char -> P "="%char ->
  Forall (fun e => Forall P (fst e) /\ Forall P (snd e)) lv ->
  Forall P (output_loop n lv).
Proof.
  induction lv as [| [k v] rest IH]; intros n Hc He Hall; [constructor |].
  inversion Hall as [| ? ? [Hk Hv] Hrest]; subst. cbn [fst snd] in *.
  cbn [output_loop].
  apply Forall_app; split; [destruct (0 <? n); repeat constructor; auto |].
  apply Forall_app; split; [exact Hk |].
  cbn [app]. constructor; [exact He |].
  apply Forall_app; split; [exact Hv | apply IH; auto].
Qed.

Lemma input_word lv ws w rest :
  Forall (fun c => isspace c = true) ws ->
  no_whitespace w -> w <> [] ->
  match rest with [] => True | c :: _ => isspace c = true end ->
  input (mk_istream (ws ++ w ++ rest) false false) lv
  = (mk_istream rest (match rest with [] => true | _ => false end) false,
     fst (parse_level_assignments w lv),
     snd (parse_level_assignments w lv)).
Proof.
  intros Hws Hw Hne Hrest. unfold input, extract_string.
  cbn [eofbit failbit unread orb].
  rewrite (skip_whitespace_before ws _ Hws).
  assert (Hskip : skip_whitespace (w ++ rest) = w ++ rest).
  { destruct w as [| c w']; [congruence |].
    inversion Hw as [| ? ? Hc _]; subst. simpl. rewrite Hc. reflexivity. }
  pose proof (word_until_whitespace w rest Hw Hrest) as Hword.
  rewrite Hskip. destruct (w ++ rest) as [| c s'] eqn:E;
    [destruct w; [congruence | discriminate] |].
  rewrite Hword. destruct (parse_level_assignments w lv). reflexivity.
Qed.

(** X17.  [operator>>] reads one word: on a good stream it skips white space,
    takes the characters up to the next white space and parses them, leaving
    the rest unread; on a stream that is not good, or holds only white space,
    it sets [failbit], assigns nothing and throws [invalid_option_value]
    with the empty token. *)
Theorem input_reads_one_word (lv : logger_levels) :
  (forall ws w rest,
     Forall (fun c => isspace c = true) ws ->
     no_whitespace w -> w <> [] ->
     match rest with [] => True | c :: _ => isspace c = true end ->
     input (mk_istream (ws ++ w ++ rest) false false) lv
     = (mk_istream rest (match rest with [] => true | _ => false end) false,
        fst (parse_level_assignments w lv),
        snd (parse_level_assignments w lv)))
  /\ (forall ws,
        Forall (fun c => isspace c = true) ws ->
        input (mk_istream ws false false) lv
        = (mk_istream [] true true, lv, Some (invalid_option_value [])))
  /\ (forall ins,
        (eofbit ins || failbit ins)%bool = true ->
        input ins lv
        = (mk_istream (unread ins) (eofbit ins) true, lv,
           Some (invalid_option_value []))).
Proof.
  split; [| split].
  - apply input_word.
  - intros ws Hws. unfold input, extract_string.
    cbn [eofbit failbit unread orb].
    rewrite <- (app_nil_r ws), (skip_whitespace_before ws [] Hws). reflexivity.
  - intros ins Hbad. unfold input, extract_string. rewrite Hbad. reflexivity.
Qed.

(** X18.  Levels written by [operator<<] to a stream and read back by
    [operator>>] into an empty map come out as they went in, provided they
    are printable and hold no white space; the stream is read to its end. *)
Theorem input_of_output (lv : logger_levels) :
  printable lv ->
  Forall (fun e => no_whitespace (fst e) /\ no_whitespace (snd e)) lv ->
  input (mk_istream (output [] lv) false false) []
  = (mk_istream [] true false, lv, None).
Proof.
  intros Hp Hws.
  assert (Hout : no_whitespace (output [] lv)).
  { unfold output. cbn [app]. apply output_loop_forall; auto. }
  assert (Hne : output [] lv <> []).
  { destruct Hp as (Hne & _). destruct lv as [| e rest]; [congruence |].
    unfold output. cbn [app]. rewrite output_loop_cons. cbn.
    pose proof (entry_text_not_empty e). destruct (entry_text e); [congruence | discriminate]. }
  pose proof (input_word [] [] (output [] lv) [] (Forall_nil _) Hout Hne I)
    as Hword.
  rewrite app_nil_r in Hword. cbn [app] in Hword.
  rewrite Hword, (parse_output_printable lv Hp). reflexivity.
Qed.

Lemma input_of_output_witness :
  input (mk_istream
           (output [] [(text "log1", text "error"); (text "log2", text "a=b")])
           false false) []
  = (mk_istream [] true false,
     [(text "log1", text "error"); (text "log2", text "a=b")], None).
Proof.
  apply (input_of_output [(text "log1", text "error"); (text "log2", text "a=b")]).
  - exact printable_sample.
  - repeat constructor.
Defined.

End LogCliFacts.

(** * Properties of the tuple utilities *)

Module TupleFacts.
Import tuple_utils.

Section Facts.
Variable type : Type.
Variable object : type -> Type.

Let tuple : Type := tuple_utils.tuple type object.

(** Getting the elements at the indices of a stretch of the tuple, one after
    the other, gives that stretch. *)
Lemma expansion_get_stretch (t : tuple) : forall before after : tuple,
  expansion (fun i => get type object i (before ++ t ++ after))
            (seq (length before) (length t))
  = Some t.
Proof.
  induction t as [| e rest IH]; intros before after; [reflexivity |].
  cbn [length seq expansion]. unfold get at 1.
  rewrite nth_error_app2, Nat.sub_diag by lia. cbn [app nth_error].
  specialize (IH (before ++ [e]) after).
  rewrite length_app, Nat.add_1_r, <- app_assoc in IH. cbn [app] in IH.
  cbn [length] in IH. rewrite IH. reflexivity.
Qed.

Lemma expansion_get_all (t : tuple) :
  expansion (fun i => get type object i t)
            (index_sequence_for type (tuple_type type object t))
  = Some t.
Proof.
  unfold index_sequence_for, tuple_type. rewrite length_map.
  pose proof (expansion_get_stretch t [] []) as E.
  cbn [app length] in E. rewrite app_nil_r in E. exact E.
Qed.

Lemma expansion_option_map {A B C : Type} (g : A -> option B) (f : B -> C)
    (pack : list A) :
  expansion (fun i => option_map f (g i)) pack
  = option_map (map f) (expansion g pack).
Proof.
  induction pack as [| i rest IH]; [reflexivity |].
  cbn [expansion]. rewrite IH.
  destruct (g i); [| reflexivity].
  destruct (expansion g rest); reflexivity.
Qed.

(** What [tuple_filter] computes. *)
Lemma tuple_filter_some (Filter : type -> bool) (Ts : list type) :
  forall Is : index_sequence,
    length Ts = length Is ->
    tuple_filter type Filter Ts Is
    = Some (map snd (filter (fun p => Filter (fst p)) (combine Ts Is))).
Proof.
  induction Ts as [| T Ts IH]; intros [| i Is] Hlen; try discriminate.
  - reflexivity.
  - cbn [tuple_filter]. rewrite IH by (simpl in Hlen; lia).
    cbn [combine filter fst]. destruct (Filter T); reflexivity.
Qed.

Lemma tuple_filter_none (Filter : type -> bool) (Ts : list type) :
  forall Is : index_sequence,
    length Ts <> length Is -> tuple_filter type Filter Ts Is = None.
Proof.
  induction Ts as [| T Ts IH]; intros [| i Is] Hlen; try reflexivity.
  - exfalso. apply Hlen. reflexivity.
  - cbn [tuple_filter]. rewrite IH by (simpl in Hlen; lia). reflexivity.
Qed.

(** Getting the elements at the indices that [tuple_filter] keeps of a
    stretch of the tuple gives the elements of that stretch whose type passes
    the filter. *)
Lemma expansion_get_filtered (Filter : type -> bool) (t : tuple) :
  forall before after : tuple,
    expansion (fun i => get type object i (before ++ t ++ after))
      (map snd (filter (fun p => Filter (fst p))
                  (combine (tuple_type type object t)
                           (seq (length before) (length t)))))
    = Some (filter (fun e => Filter (type_of type object e)) t).
Proof.
  induction t as [| e rest IH]; intros before after; [reflexivity |].
  specialize (IH (before ++ [e]) after).
  rewrite length_app, Nat.add_1_r, <- app_assoc in IH. cbn [app length] in IH.
  cbn [tuple_type map length seq combine filter fst].
  fold (tuple_type type object rest).
  destruct (Filter (type_of type object e)) eqn:HF.
  - cbn [map snd expansion]. unfold get at 1.
    rewrite nth_error_app2, Nat.sub_diag by lia. cbn [app nth_error].
    rewrite IH. reflexivity.
  - exact IH.
Qed.

End Facts.

Lemma tuple_map_some (type : Type) (object : type -> Type)
    (t : tuple type object) (f : element type object -> element type object) :
  tuple_map type object t f = Some (map f t).
Proof.
  unfold tuple_map, tuple_map_helper.
  rewrite expansion_option_map, expansion_get_all. reflexivity.
Qed.

Lemma tuple_for_each_some (type : Type) (object : type -> Type) (S : Type)
    (t : tuple type object) (f : element type object -> S -> S) :
  t <> [] ->
  tuple_for_each type object t f
  = Some (fun s => fold_left (fun s e => f e s) t s).
Proof.
  intros Hne. unfold tuple_for_each, tuple_for_each_helper.
  rewrite expansion_get_all.
  destruct t as [| e rest]; [contradiction | reflexivity].
Qed.

(** X19.  [tuple_filter] is defined exactly when the tuple type and the
    index sequence have the same length; it then keeps, in order, the indices
    that stand opposite a type passing the filter. *)
Theorem tuple_filter_keeps_passing_indices
    (type : Type) (Filter : type -> bool)
    (Tuple : list type) (IndexSequence : index_sequence) :
  (length Tuple = length IndexSequence ->
   tuple_filter type Filter Tuple IndexSequence
   = Some (map snd (filter (fun p => Filter (fst p))
                      (combine Tuple IndexSequence))))
  /\ (length Tuple <> length IndexSequence ->
      tuple_filter type Filter Tuple IndexSequence = None).
Proof.
  split; [apply tuple_filter_some | apply tuple_filter_none].
Qed.

(** X20.  [tuple_filter_by_type] is well-formed for every tuple and returns
    the elements whose type passes the filter, in the order they have in the
    tuple. *)
Theorem tuple_filter_by_type_filters
    (type : Type) (object : type -> Type)
    (FilterClass : type -> bool) (t : tuple type object) :
  tuple_filter_by_type type object FilterClass t
  = Some (filter (fun e => FilterClass (type_of type object e)) t).
Proof.
  unfold tuple_filter_by_type, tuple_filter_helper, index_sequence_for.
  rewrite tuple_filter_some by (rewrite length_seq; reflexivity).
  pose proof (expansion_get_filtered type object FilterClass t [] []) as E.
  cbn [app length] in E. rewrite app_nil_r in E.
  unfold tuple_type at 2. rewrite length_map. exact E.
Qed.


(** X22.  [tuple_for_each] of a tuple that has elements calls [f] once on
    each of them, from the first to the last; of the empty tuple it is
    ill-formed, the braced list that its helper initialises [ignore_me] with
    being empty. *)
Theorem tuple_for_each_visits_in_order
    (type : Type) (object : type -> Type) (S : Type)
    (t : tuple type object) (f : element type object -> S -> S) :
  (t <> [] ->
   exists run,
     tuple_for_each type object t f = Some run
     /\ forall s, run s = fold_left (fun s e => f e s) t s)
  /\ (t = [] -> tuple_for_each type object t f = None).
Proof.
  split.
  - intros Hne. rewrite tuple_for_each_some by exact Hne.
    eexists. split; reflexivity.
  - intros ->. reflexivity.
Qed.

Lemma tuple_for_each_visits_in_order_witness :
  let t : tuple unit (fun _ => Z) :=
    [existT _ tt 1; existT _ tt 2; existT _ tt 3] in
  let f (e : element unit (fun _ => Z)) (seen : list Z) :=
    seen ++ [projT2 e] in
  t <> []
  /\ exists run,
       tuple_for_each unit (fun _ => Z) t f = Some run
       /\ forall s, run s = fold_left (fun s e => f e s) t s.
Proof.
  cbv zeta. split; [discriminate |].
  apply (proj1 (tuple_for_each_visits_in_order unit (fun _ => Z) (list Z)
                  [existT _ tt 1; existT _ tt 2; existT _ tt 3]
                  (fun e seen => seen ++ [projT2 e]))).
  discriminate.
Defined.

Example test_for_each :
  option_map (fun run => run [])
    (tuple_for_each unit (fun _ => Z)
       [existT _ tt 1; existT _ tt 2; existT _ tt 3]
       (fun e seen => seen ++ [projT2 e]))
  = Some [1; 2; 3]
  /\ tuple_for_each unit (fun _ => Z) []
       (fun e (seen : list Z) => seen ++ [projT2 e])
     = None.
Proof. split; reflexivity. Qed.

(** X23.  Mapping twice is mapping once with the composed function, for every
    tuple; and visiting a mapped tuple that has elements is visiting the
    tuple with the visitor applied after the map. *)
Theorem tuple_map_composes
    (type : Type) (object : type -> Type) (S : Type)
    (t : tuple type object)
    (f g : element type object -> element type object)
    (h : element type object -> S -> S) :
  (exists t1,
     tuple_map type object t f = Some t1
     /\ tuple_map type object t1 g
        = tuple_map type object t (fun e => g (f e)))
  /\ (t <> [] ->
      exists t1 run1 run,
        tuple_map type object t f = Some t1
        /\ tuple_for_each type object t1 h = Some run1
        /\ tuple_for_each type object t (fun e => h (f e)) = Some run
        /\ forall s, run1 s = run s).
Proof.
  split.
  - exists (map f t). split; [apply tuple_map_some |].
    rewrite !tuple_map_some, map_map. reflexivity.
  - intros Hne. exists (map f t). eexists. eexists.
    split; [apply tuple_map_some |].
    split; [apply tuple_for_each_some;
            destruct t; [contradiction | discriminate] |].
    split; [apply tuple_for_each_some; exact Hne |].
    intros s. cbv beta. clear Hne. revert s.
    induction t as [| e rest IH]; intros s; [reflexivity | apply IH].
Qed.

Lemma tuple_map_composes_witness :
  let t : tuple unit (fun _ => Z) := [existT _ tt 1; existT _ tt 2] in
  let f (e : element unit (fun _ => Z)) : element unit (fun _ => Z) :=
    existT _ tt (projT2 e * 10) in
  let h (e : element unit (fun _ => Z)) (seen : list Z) :=
    seen ++ [projT2 e] in
  t <> []
  /\ exists t1 run1 run,
       tuple_map unit (fun _ => Z) t f = Some t1
       /\ tuple_for_each unit (fun _ => Z) t1 h = Some run1
       /\ tuple_for_each unit (fun _ => Z) t (fun e => h (f e)) = Some run
       /\ forall s, run1 s = run s.
Proof.
  cbv zeta. split; [discriminate |].
  apply (proj2 (tuple_map_composes unit (fun _ => Z) (list Z)
                  [existT _ tt 1; existT _ tt 2]
                  (fun e => existT _ tt (projT2 e * 10))
                  (fun e => e)
                  (fun e seen => seen ++ [projT2 e]))).
  discriminate.
Defined.

(** The two tests of the header: squares of the integers below five, and the
    first five odd numbers.  The one type is [int], its values are in [Z]; the
    functions have no effects. *)
Example test_generate_from_integers :
  fst (tuple_generate_from_integers unit (fun _ => Z) [0; 1; 2; 3; 4]
         (fun x (s : unit) => (existT _ tt (x * x), s)) tt)
  = map (existT _ tt) [0; 1; 4; 9; 16].
Proof. reflexivity. Qed.

Example test_generate_from_indices :
  fst (tuple_generate_from_indices unit (fun _ => nat) (seq 0 5)
         (fun e (s : unit) => (existT _ tt (2 * e + 1)%nat, s)) tt)
  = map (existT _ tt) [1; 3; 5; 7; 9]%nat.
Proof. reflexivity. Qed.

(** X24.  [tuple_generate_from_integers] calls [f] on the integers from left
    to right: generating from a sequence followed by another is generating
    from the first and then, in the state this leaves, from the second; the
    tuple has one element per integer. *)
Theorem tuple_generate_from_integers_in_order
    (type : Type) (object : type -> Type) (N S : Type)
    (Is1 Is2 : list N) (f : N -> S -> element type object * S) (s : S) :
  let '(t1, s1) := tuple_generate_from_integers type object Is1 f s in
  let '(t2, s2) := tuple_generate_from_integers type object Is2 f s1 in
  tuple_generate_from_integers type object (Is1 ++ Is2) f s = (t1 ++ t2, s2)
  /\ length t1 = length Is1.
Proof.
  revert s. induction Is1 as [| i rest IH]; intros s.
  - cbn. destruct (tuple_generate_from_integers type object Is2 f s). auto.
  - cbn [app tuple_generate_from_integers].
    destruct (f i s) as [x sx]. specialize (IH sx).
    destruct (tuple_generate_from_integers type object rest f sx) as [t1 s1].
    destruct (tuple_generate_from_integers type object Is2 f s1) as [t2 s2].
    destruct IH as [-> Hlen]. cbn. auto.
Qed.

End TupleFacts.

(** * Properties of [configure] *)

Module ConfigureFacts.
Import Ascii String log_cli LogCliNotions.

Section Facts.
Variable log_level : Type.
Variable lexical_cast : sstring -> option log_level.
Variable logger_registry : Type.
Variable set_all_loggers_level : log_level -> logger_registry -> logger_registry.
Variable set_logger_level :
  sstring -> log_level -> logger_registry -> option logger_registry.

(** [get_logger_level(name)], which the tests read the outcome with: [None]
    for a name that is not registered. *)
Variable get_logger_level : sstring -> logger_registry -> option log_level.

(** X25.  When [configure] throws, the switches for standard output and
    syslog are left as they were; when it throws because the default level is
    not a level, nothing at all has been changed and the exception is
    [runtime_error] with the text "Unknown log level" and the offending
    word. *)
Theorem configure_throws_before_the_switches
    (vars : variables_map) (st : logging logger_registry) (e : exception) :
  snd (configure log_level lexical_cast logger_registry
         set_all_loggers_level set_logger_level vars st) = Some e ->
  stdout_enabled _
    (fst (configure log_level lexical_cast logger_registry
            set_all_loggers_level set_logger_level vars st))
  = stdout_enabled _ st
  /\ syslog_enabled _
       (fst (configure log_level lexical_cast logger_registry
               set_all_loggers_level set_logger_level vars st))
     = syslog_enabled _ st
  /\ (lexical_cast (default_log_level vars) = None ->
      fst (configure log_level lexical_cast logger_registry
             set_all_loggers_level set_logger_level vars st) = st
      /\ e = unknown_log_level (default_log_level vars)).
Proof.
  unfold configure, log_level_from_string.
  destruct (lexical_cast (default_log_level vars)) as [l |].
  - destruct (configure_loop _ _ _ _ _ _) as [r2 [e' |]]; cbn.
    + intros _. repeat split; discriminate.
    + discriminate.
  - cbn. intros [= <-]. auto.
Qed.

(** What the registry is expected to do: a level set for a logger is the
    level it has, setting it leaves the other loggers alone, and setting all
    levels sets the level of every registered logger. *)
Hypothesis set_then_get : forall name l r r',
  set_logger_level name l r = Some r' -> get_logger_level name r' = Some l.
Hypothesis set_leaves_others : forall name other l r r',
  other <> name ->
  set_logger_level name l r = Some r' ->
  get_logger_level other r' = get_logger_level other r.
Hypothesis set_all_then_get : forall name l r,
  get_logger_level name r <> None ->
  get_logger_level name (set_all_loggers_level l r) = Some l.

Lemma configure_loop_sets pairs : forall r r',
  NoDup (map fst pairs) ->
  configure_loop log_level lexical_cast logger_registry set_logger_level pairs r
  = (r', None) ->
  (forall name level,
     In (name, level) pairs ->
     exists l, lexical_cast level = Some l
               /\ get_logger_level name r' = Some l)
  /\ (forall name,
        ~ In name (map fst pairs) ->
        get_logger_level name r' = get_logger_level name r).
Proof.
  induction pairs as [| [n lv] rest IH]; intros r r' Hnd Hloop.
  - injection Hloop as <-. split; [intros ? ? [] | reflexivity].
  - cbn [configure_loop] in Hloop. unfold log_level_from_string in Hloop.
    destruct (lexical_cast lv) as [l |] eqn:Hl; [| discriminate].
    destruct (set_logger_level n l r) as [r1 |] eqn:Hset; [| discriminate].
    inversion Hnd as [| ? ? Hnotin Hnd']; subst.
    destruct (IH r1 r' Hnd' Hloop) as [Hin Hout].
    split.
    + intros name level [[= <- <-] | Hrest]; [| apply Hin; exact Hrest].
      exists l. split; [exact Hl |].
      rewrite (Hout n Hnotin). eapply set_then_get; eauto.
    + intros name Hn. cbn [map fst] in Hn.
      rewrite Hout by (intros Hin'; apply Hn; right; exact Hin').
      eapply set_leaves_others; eauto.
      intros ->. apply Hn. left. reflexivity.
Qed.

(** X26.  Over a registry in which a level set for a logger is the level it
    has, setting it leaves the other loggers alone and setting all levels
    reaches every registered logger: when [configure] returns, every logger
    named in [logger-log-level] has the level given for it, every other
    registered logger has the default level, and the two switches are as the
    options say. *)
Theorem configure_sets_levels_and_switches
    (vars : variables_map) (st st' : logging logger_registry) :
  NoDup (map fst (logger_log_level vars)) ->
  configure log_level lexical_cast logger_registry
    set_all_loggers_level set_logger_level vars st = (st', None) ->
  exists default,
    lexical_cast (default_log_level vars) = Some default
    /\ (forall name level,
          In (name, level) (logger_log_level vars) ->
          exists l, lexical_cast level = Some l
                    /\ get_logger_level name (registry _ st') = Some l)
    /\ (forall name,
          ~ In name (map fst (logger_log_level vars)) ->
          get_logger_level name (registry _ st) <> None ->
          get_logger_level name (registry _ st') = Some default)
    /\ stdout_enabled _ st' = log_to_stdout vars
    /\ syslog_enabled _ st' = log_to_syslog vars.
Proof.
  intros Hnd. unfold configure, log_level_from_string.
  destruct (lexical_cast (default_log_level vars)) as [l |] eqn:Hl;
    [| discriminate].
  destruct (configure_loop _ _ _ _ _ _) as [r2 [e |]] eqn:Hloop;
    [discriminate |].
  intros [= <-]. exists l. split; [reflexivity |].
  destruct (configure_loop_sets _ _ _ Hnd Hloop) as [Hin Hout].
  cbn [registry stdout_enabled syslog_enabled].
  repeat split; auto.
  intros name Hn Hreg. rewrite (Hout name Hn).
  apply set_all_then_get. exact Hreg.
Qed.

End Facts.

(** ** The sample registry keeps the laws *)

Lemma sample_set_then_get name l r r' :
  SampleLogging.set_logger_level name l r = Some r' ->
  SampleLogging.get_logger_level name r' = Some l.
Proof.
  unfold SampleLogging.set_logger_level, SampleLogging.get_logger_level.
  destruct (lookup name r); [| discriminate].
  intros [= <-]. apply LogCliFacts.lookup_assign_same.
Qed.

Lemma sample_set_leaves_others name other l r r' :
  other <> name ->
  SampleLogging.set_logger_level name l r = Some r' ->
  SampleLogging.get_logger_level other r'
  = SampleLogging.get_logger_level other r.
Proof.
  unfold SampleLogging.set_logger_level, SampleLogging.get_logger_level.
  intros Hne. destruct (lookup name r); [| discriminate].
  intros [= <-]. apply LogCliFacts.lookup_assign_other. exact Hne.
Qed.

Lemma sample_set_all_then_get name l r :
  SampleLogging.get_logger_level name r <> None ->
  SampleLogging.get_logger_level name (SampleLogging.set_all_loggers_level l r)
  = Some l.
Proof.
  unfold SampleLogging.get_logger_level, SampleLogging.set_all_loggers_level.
  induction r as [| [k v] rest IH]; cbn; [congruence |].
  destruct (sstring_eq_dec name k); [reflexivity | exact IH].
Qed.

Example test_default_log_level :
  SampleLogging.configure
    (mk_variables_map (text "foo") [] true false) SampleLogging.three_loggers
  = (SampleLogging.three_loggers,
     Some (runtime_error (text "Unknown log level 'foo'")))
  /\ fst (SampleLogging.configure
            (mk_variables_map (text "debug") [] true false)
            SampleLogging.three_loggers)
     = mk_logging _
         [(text "log1", text "debug"); (text "log2", text "debug");
          (text "log3", text "debug")] true false.
Proof. split; reflexivity. Qed.

Lemma configure_throws_before_the_switches_witness :
  let result :=
    SampleLogging.configure
      (mk_variables_map (text "debug") [(text "nolog", text "warn")] false true)
      SampleLogging.three_loggers in
  stdout_enabled _ (fst result) = true
  /\ syslog_enabled _ (fst result) = false
  /\ (SampleLogging.lexical_cast (text "debug") = None ->
      fst result = SampleLogging.three_loggers
      /\ unknown_logger (text "nolog") = unknown_log_level (text "debug")).
Proof.
  apply (configure_throws_before_the_switches sstring
           SampleLogging.lexical_cast logger_levels
           SampleLogging.set_all_loggers_level SampleLogging.set_logger_level
           (mk_variables_map (text "debug") [(text "nolog", text "warn")]
              false true)
           SampleLogging.three_loggers (unknown_logger (text "nolog"))).
  reflexivity.
Defined.

Lemma configure_sets_levels_and_switches_witness :
  let vars :=
    mk_variables_map (text "debug")
      [(text "log1", text "error"); (text "log2", text "warn")] false true in
  let st' := fst (SampleLogging.configure vars SampleLogging.three_loggers) in
  exists default,
    SampleLogging.lexical_cast (default_log_level vars) = Some default
    /\ (forall name level,
          In (name, level) (logger_log_level vars) ->
          exists l, SampleLogging.lexical_cast level = Some l
                    /\ SampleLogging.get_logger_level name (registry _ st')
                       = Some l)
    /\ (forall name,
          ~ In name (map fst (logger_log_level vars)) ->
          SampleLogging.get_logger_level name
            (registry _ SampleLogging.three_loggers) <> None ->
          SampleLogging.get_logger_level name (registry _ st') = Some default)
    /\ stdout_enabled _ st' = log_to_stdout vars
    /\ syslog_enabled _ st' = log_to_syslog vars.
Proof.
  apply (configure_sets_levels_and_switches sstring
           SampleLogging.lexical_cast logger_levels
           SampleLogging.set_all_loggers_level SampleLogging.set_logger_level
           SampleLogging.get_logger_level
           sample_set_then_get sample_set_leaves_others
           sample_set_all_then_get
           (mk_variables_map (text "debug")
              [(text "log1", text "error"); (text "log2", text "warn")]
              false true)
           SampleLogging.three_loggers).
  - repeat constructor; simpl; intuition discriminate.
  - reflexivity.
Defined.

End ConfigureFacts.
